(** * Pokédex catalog browser: a shallow embedding of [app/page.tsx]

    The component [Home] of [src/pokemon-pokedex/app/page.tsx] is embedded
    function by function:

    - JavaScript strings are sequences of UTF-16 code units ([list N]);
      [includes], [toLowerCase], [toString] and the truthiness test behind
      [!search] and [a || b] are written out on that representation;
    - the memoised [filteredPokemon] is a function of the canonical list and
      the query;
    - the effect [fetchPokemon] is a function of the network's answers and of
      the order in which the concurrently issued detail requests complete,
      with [Promise.all] as an explicit slot-filling machine;
    - the division [height / 10] is IEEE 754 binary64 division
      ([PrimFloat.div]) followed by the ECMAScript number-to-string
      conversion that React applies to a numeric child. *)

From Stdlib Require Import ZArith NArith Lia Floats Ascii DecimalString.
From Stdlib Require DecimalPos DecimalZ.
From stdpp Require Import base option list strings relations gmap.

Local Open Scope N_scope.

(** ** JavaScript strings *)

Module JsString.

(** A string is its sequence of UTF-16 code units. *)
Definition code_unit := N.
Definition jsstring := list code_unit.

(** Literals of the source are ASCII; [lit] reads one off a Rocq string. *)
Fixpoint lit (s : string) : jsstring :=
  match s with
  | EmptyString => []
  | String a s' => N_of_ascii a :: lit s'
  end.

(** [a === b] on strings. *)
Fixpoint strict_equal (a b : jsstring) : bool :=
  match a, b with
  | [], [] => true
  | c :: a', d :: b' => (c =? d) && strict_equal a' b'
  | _, _ => false
  end.

(** Truthiness of a string value: every string but [''] is truthy. *)
Definition truthy (s : jsstring) : bool :=
  match s with
  | [] => false
  | _ :: _ => true
  end.

(** [s.startsWith(q)] at position 0, the inner loop of [includes]. *)
Fixpoint startsWith (s q : jsstring) {struct q} : bool :=
  match q, s with
  | [], _ => true
  | _ :: _, [] => false
  | c :: q', d :: s' => (c =? d) && startsWith s' q'
  end.

(** [s.includes(q)]: [q] occurs in [s] at some position; the empty string
    occurs in every string. *)
Fixpoint includes (s q : jsstring) : bool :=
  startsWith s q ||
  match s with
  | [] => false
  | _ :: s' => includes s' q
  end.

(** The relation [includes] decides, in the words of the specification:
    [q] is a substring of [s]. *)
Definition Substring (q s : jsstring) : Prop :=
  ∃ pre post, s = pre ++ q ++ post.

(** *** Case conversion

    [String.prototype.toLowerCase] and [toUpperCase] apply the Unicode
    default case conversion.  The table is embedded for the Basic Latin and
    Latin-1 Supplement blocks (U+0000 to U+00FF) and for the two code units
    outside them that upper-casing these blocks produces (U+0178, U+039C);
    every other code unit is passed through unchanged, which is not what
    the built-in does there (it has mappings for the other scripts, and a
    rule for the capital sigma that looks at its neighbours).  A statement
    that depends on how case is converted is therefore made for strings of
    the Latin-1 range ([latin1] below), where the conversion goes code unit
    by code unit and the table is the Unicode one. *)

Definition lower_unit (c : code_unit) : code_unit :=
  if (65 <=? c) && (c <=? 90) then c + 32               (* A-Z *)
  else if (192 <=? c) && (c <=? 222) && negb (c =? 215)
       then c + 32                                       (* À-Þ but × *)
  else if c =? 376 then 255                              (* Ÿ *)
  else if c =? 924 then 956                              (* Greek capital mu *)
  else c.

Definition toLowerCase (s : jsstring) : jsstring := map lower_unit s.

(** [toUpperCase] is not called by the page; it is the [toUpper] of the
    specification's case-insensitivity property.  Upper-casing may lengthen
    a string: U+00DF (sharp s) becomes [SS]. *)
Definition upper_unit (c : code_unit) : jsstring :=
  if (97 <=? c) && (c <=? 122) then [c - 32]             (* a-z *)
  else if (224 <=? c) && (c <=? 254) && negb (c =? 247)
       then [c - 32]                                     (* à-þ but ÷ *)
  else if c =? 223 then [83; 83]                         (* ß *)
  else if c =? 255 then [376]                            (* ÿ *)
  else if c =? 181 then [924]                            (* micro sign *)
  else [c].

Definition toUpperCase (s : jsstring) : jsstring := flat_map upper_unit s.

Definition is_ascii (c : code_unit) : bool := c <? 128.

(** *** Decimal numerals

    The decimal numeral of an integer: its digits, most significant first,
    without leading zeros, after a [-] when it is negative. *)
Definition numeral (z : Z) : jsstring :=
  lit (NilZero.string_of_int (Z.to_int z)).

(** [s.padStart(n, '0')]. *)
Definition padStart0 (n : nat) (s : jsstring) : jsstring :=
  replicate (n - length s)%nat 48 ++ s.

End JsString.
Import JsString.

(** ** The data model *)

(** [interface Pokemon].  The three numeric fields hold integers (the remote
    source's identifier and its two measurements in tenths of a unit); the
    [sprite] is whatever [a || b] left there, [None] standing for [null]. *)
Module Pokemon.
Record t := mk {
  id : Z;
  name : jsstring;
  types : list jsstring;
  sprite : option jsstring;
  height : Z;
  weight : Z;
}.
End Pokemon.

(** The detail response of the remote API, as [fetchPokemon] reads it:
    [detail.types[i].type.name],
    [detail.sprites.other['official-artwork'].front_default] and
    [detail.sprites.front_default]. *)
Module Api.
Record NamedRef := { ref_name : jsstring }.
Record TypeSlot := { type : NamedRef }.
Record Artwork := { artwork_front_default : option jsstring }.
Record OtherSprites := { official_artwork : Artwork }.
Record Sprites := {
  front_default : option jsstring;
  other : OtherSprites;
}.
Record Detail := {
  id : Z;
  name : jsstring;
  types : list TypeSlot;
  sprites : Sprites;
  height : Z;
  weight : Z;
}.
(** One entry of [data.results]. *)
Record Ref := { url : jsstring }.
End Api.

(** [a || b] on values of type [string | null]: [a] unless it is falsy, and
    both [null] and the empty string are falsy. *)
Definition js_or (a b : option jsstring) : option jsstring :=
  match a with
  | Some s => if truthy s then a else b
  | None => b
  end.

(** The two image references of a detail response: the official artwork,
    read first, and the plain front sprite. *)
Definition preferred_image (detail : Api.Detail) : option jsstring :=
  Api.artwork_front_default
    (Api.official_artwork (Api.other (Api.sprites detail))).
Definition fallback_image (detail : Api.Detail) : option jsstring :=
  Api.front_default (Api.sprites detail).

(** The object literal built by the callback of [data.results.map]
    (lines 31-38). *)
Definition normalize (detail : Api.Detail) : Pokemon.t :=
  {| Pokemon.id := Api.id detail;
     Pokemon.name := Api.name detail;
     Pokemon.types := map (λ t, Api.ref_name (Api.type t)) (Api.types detail);
     Pokemon.sprite := js_or (preferred_image detail) (fallback_image detail);
     Pokemon.height := Api.height detail;
     Pokemon.weight := Api.weight detail |}.

(** ** Numbers at render time

    [selectedPokemon.height / 10] is a binary64 division, and React renders
    the quotient through the number-to-string conversion of ECMAScript
    (Number::toString with radix 10): the shortest decimal numeral that
    rounds back to the value, laid out with or without an exponent. *)

Module JsNumber.
Local Open Scope Z_scope.

(** The Number that an integer reads as: the integer itself when binary64
    holds it (every integer of magnitude up to 2^53 does), else the nearest
    binary64 value, ties to the even mantissa, and an infinity past the
    largest one. *)
Definition of_Z (z : Z) : float :=
  SF2Prim (binary_normalize prec emax z 0 false).

(** [Number.isSafeInteger]: magnitude below 2^53. *)
Definition safe_integer (z : Z) : bool := Z.abs z <? 2 ^ 53.

(** [c * 10^t ?= b * 2^e], on integers, for exponents of either sign. *)
Definition compare_scaled (c t b e : Z) : comparison :=
  (c * 10 ^ Z.max t 0 * 2 ^ Z.max (- e) 0
   ?= b * 2 ^ Z.max e 0 * 10 ^ Z.max (- t) 0).

(** The reals that round to [m * 2^e] lie between the midpoints to its
    two neighbours; in quarter units of the last place these are
    [lo4 m e] and [hi4 m], and they belong to the interval when [m] is
    even (round half to even).  Below a power of two the lower
    neighbour is twice as near. *)
Definition lo4 (m e : Z) : Z :=
  if (m =? 2 ^ 52) && (-1074 <? e) then 4 * m - 1 else 4 * m - 2.
Definition hi4 (m : Z) : Z := 4 * m + 2.

Definition rounds_to (m e c t : Z) : bool :=
  match compare_scaled c t (lo4 m e) (e - 2),
        compare_scaled c t (hi4 m) (e - 2) with
  | Gt, Lt => true
  | Eq, Lt | Gt, Eq => Z.even m
  | _, _ => false
  end.

(** The [n] with [10^(n-1) <= m * 2^e < 10^n]: from an estimate by the
    binary logarithm (1233/4096 approximates the decimal logarithm of
    2), down while the value is below [10^(n-1)], then up while it is
    [10^n] or more. *)
Fixpoint decade_down (fuel : nat) (n m e : Z) : Z :=
  match fuel with
  | O => n
  | S fuel' =>
      match compare_scaled 1 (n - 1) m e with
      | Gt => decade_down fuel' (n - 1) m e
      | _ => n
      end
  end.

Fixpoint decade_up (fuel : nat) (n m e : Z) : Z :=
  match fuel with
  | O => n
  | S fuel' =>
      match compare_scaled 1 n m e with
      | Gt => n
      | _ => decade_up fuel' (n + 1) m e
      end
  end.

Definition decade (m e : Z) : Z :=
  let estimate := (Z.log2 m + e) * 1233 / 4096 in
  decade_up 700 (decade_down 700 estimate m e) m e.

(** [floor (m * 2^e / 10^t)]. *)
Definition scaled_floor (m e t : Z) : Z :=
  (m * 2 ^ Z.max e 0 * 10 ^ Z.max (- t) 0)
  / (2 ^ Z.max (- e) 0 * 10 ^ Z.max t 0).

(** The candidate with [k] digits, if one rounds to [m * 2^e]: of the two
    multiples of [10^(n-k)] around the value, the nearer one that does,
    the even one on a tie. *)
Definition candidate (m e n k : Z) : option Z :=
  let t := n - k in
  let c := scaled_floor m e t in
  match rounds_to m e c t, rounds_to m e (c + 1) t with
  | true, true =>
      match compare_scaled (2 * c + 1) t (2 * m) e with
      | Gt => Some c
      | Lt => Some (c + 1)
      | Eq => Some (if Z.even c then c else c + 1)
      end
  | true, false => Some c
  | false, true => Some (c + 1)
  | false, false => None
  end.

(** The least [k] that has a candidate, with the candidate's scale. *)
Fixpoint shortest (fuel : nat) (m e n k : Z) : Z * Z :=
  match fuel with
  | O => (scaled_floor m e (n - k), n - k)
  | S fuel' =>
      match candidate m e n k with
      | Some c => (c, n - k)
      | None => shortest fuel' m e n (k + 1)
      end
  end.

(** [s] is not divisible by 10. *)
Fixpoint strip_zeros (fuel : nat) (c t : Z) : Z * Z :=
  match fuel with
  | O => (c, t)
  | S fuel' =>
      if (c mod 10 =? 0) && negb (c =? 0)
      then strip_zeros fuel' (c / 10) (t + 1)
      else (c, t)
  end.

Definition zeros (n : Z) : jsstring := replicate (Z.to_nat n) 48%N.

(** Steps 6 to 10 of Number::toString: the digits [ds] of [s] and the
    decimal exponent [n]. *)
Definition layout (ds : jsstring) (n : Z) : jsstring :=
  let k := Z.of_nat (length ds) in
  if (k <=? n) && (n <=? 21) then ds ++ zeros (n - k)
  else if (0 <? n) && (n <=? 21)
       then take (Z.to_nat n) ds ++ lit "." ++ drop (Z.to_nat n) ds
  else if (-6 <? n) && (n <=? 0)
       then lit "0." ++ zeros (- n) ++ ds
  else
    let e := n - 1 in
    let sign := if 0 <=? e then lit "+" else lit "-" in
    let expo := lit "e" ++ sign ++ numeral (Z.abs e) in
    match ds with
    | [d] => [d] ++ expo
    | d :: ds' => [d] ++ lit "." ++ ds' ++ expo
    | [] => expo
    end.

Definition positive_toString (m : positive) (e : Z) : jsstring :=
  let n0 := decade (Zpos m) e in
  let '(c, t) := shortest 17 (Zpos m) e n0 1 in
  let '(s, t') := strip_zeros 20 c t in
  let ds := numeral s in
  layout ds (Z.of_nat (length ds) + t').

(** Number::toString(x, 10). *)
Definition numberToString (x : float) : jsstring :=
  match Prim2SF x with
  | S754_nan => lit "NaN"
  | S754_zero _ => lit "0"
  | S754_infinity false => lit "Infinity"
  | S754_infinity true => lit "-Infinity"
  | S754_finite false m e => positive_toString m e
  | S754_finite true m e => lit "-" ++ positive_toString m e
  end.

(** [Number.prototype.toString] on the Number an integer reads as.  A safe
    integer is held exactly, and the shortest numeral that rounds back to
    it is its decimal numeral; past the safe range the general conversion
    applies to the nearest binary64 value (from 10^21 on with an
    exponent). *)
Definition toString (z : Z) : jsstring :=
  if safe_integer z then numeral z else numberToString (of_Z z).

End JsNumber.
Import JsNumber.

(** ** The search filter (lines 53-62) *)

(** The predicate handed to [pokemon.filter], [query] being the lower-cased
    search string. *)
Definition matchesQuery (query : jsstring) (p : Pokemon.t) : bool :=
  includes (toLowerCase (Pokemon.name p)) query
  || includes (toString (Pokemon.id p)) query
  || existsb (λ type, includes (toLowerCase type) query) (Pokemon.types p).

Definition filteredPokemon (pokemon : list Pokemon.t) (search : jsstring)
  : list Pokemon.t :=
  if negb (truthy search) then pokemon
  else
    let query := toLowerCase search in
    List.filter (matchesQuery query) pokemon.

(** ** [Promise.all]

    The aggregate promise of [Promise.all] keeps one slot per input promise
    and a count of the slots still empty.  When input [i] is fulfilled its
    value is written to slot [i] and the count goes down; at zero the
    aggregate is fulfilled with the slots.  The first input that is rejected
    rejects the aggregate.  A promise that is settled stays as it is. *)
Module Promise.

Inductive settled (A E : Type) : Type :=
| Pending
| Fulfilled (value : A)
| Rejected (reason : E).
Arguments Pending {A E}.
Arguments Fulfilled {A E} value.
Arguments Rejected {A E} reason.

Section All.
Context {A E : Type}.

Record all_state := {
  values : list (option A);
  remainingElementsCount : nat;
  promise : settled (list A) E;
}.

Definition resolve (v : list A) (st : all_state) : all_state :=
  match promise st with
  | Pending =>
      {| values := values st;
         remainingElementsCount := remainingElementsCount st;
         promise := Fulfilled v |}
  | _ => st
  end.

Definition reject (e : E) (st : all_state) : all_state :=
  match promise st with
  | Pending =>
      {| values := values st;
         remainingElementsCount := remainingElementsCount st;
         promise := Rejected e |}
  | _ => st
  end.

(** After the loop over the [n] inputs: [n] empty slots, and an
    aggregate that is already fulfilled when there is no input. *)
Definition all_start (n : nat) : all_state :=
  let st := {| values := replicate n None;
               remainingElementsCount := n;
               promise := Pending |} in
  match n with
  | O => resolve [] st
  | S _ => st
  end.

(** The resolve-element function of input [i]; a slot is written once. *)
Definition on_fulfilled (i : nat) (x : A) (st : all_state) : all_state :=
  match values st !! i with
  | Some None =>
      let vs := <[i := Some x]> (values st) in
      let r := pred (remainingElementsCount st) in
      let st' := {| values := vs;
                    remainingElementsCount := r;
                    promise := promise st |} in
      match r with
      | O => resolve (omap id vs) st'
      | S _ => st'
      end
  | _ => st
  end.

(** Input [i] settles with the outcome [outcomes] holds for it. *)
Definition deliver (outcomes : list (E + A)) (st : all_state) (i : nat)
  : all_state :=
  match outcomes !! i with
  | Some (inr x) => on_fulfilled i x st
  | Some (inl e) => reject e st
  | None => st
  end.

(** [Promise.all] of inputs that settle in the order [order] (input
    indices, earliest first) with the outcomes [outcomes]. *)
Definition all (outcomes : list (E + A)) (order : list nat)
  : settled (list A) E :=
  promise (foldl (deliver outcomes) (all_start (length outcomes)) order).
End All.
Arguments all_state : clear implicits.

End Promise.

(** ** The catalog loader (lines 21-51) *)

(** What is thrown and caught is left opaque: a message. *)
Definition JsError := jsstring.

(** The remote API: each of the two endpoints answers with a parsed body or
    fails (the request is rejected, or the body is not JSON of the expected
    shape and reading it throws). *)
Record Network := {
  list_endpoint : JsError + list Api.Ref;
  detail_endpoint : jsstring → JsError + Api.Detail;
}.

(** [useState]: the four state variables of [Home]. *)
Record State := {
  pokemon : list Pokemon.t;
  search : jsstring;
  loading : bool;
  selectedPokemon : option Pokemon.t;
}.

(** The component state together with the console, the sink of
    [console.error]: one entry per call, its arguments. *)
Record World := {
  ui : State;
  console : list (jsstring * JsError);
}.

Definition initial : World :=
  {| ui := {| pokemon := []; search := []; loading := true;
              selectedPokemon := None |};
     console := [] |}.

Definition setPokemon (v : list Pokemon.t) (st : State) : State :=
  {| pokemon := v; search := search st; loading := loading st;
     selectedPokemon := selectedPokemon st |}.
Definition setSearch (v : jsstring) (st : State) : State :=
  {| pokemon := pokemon st; search := v; loading := loading st;
     selectedPokemon := selectedPokemon st |}.
Definition setLoading (v : bool) (st : State) : State :=
  {| pokemon := pokemon st; search := search st; loading := v;
     selectedPokemon := selectedPokemon st |}.
Definition setSelectedPokemon (v : option Pokemon.t) (st : State) : State :=
  {| pokemon := pokemon st; search := search st; loading := loading st;
     selectedPokemon := v |}.

Definition on_ui (f : State → State) (w : World) : World :=
  {| ui := f (ui w); console := console w |}.

Definition console_error (msg : jsstring) (e : JsError) (w : World) : World :=
  {| ui := ui w; console := console w ++ [(msg, e)] |}.

(** The async callback of [data.results.map]: one detail request, then the
    normalisation of its body. *)
Definition fetchDetail (net : Network) (p : Api.Ref) : JsError + Pokemon.t :=
  match detail_endpoint net (Api.url p) with
  | inr detail => inr (normalize detail)
  | inl e => inl e
  end.

(** The [catch] block. *)
Definition on_catch (error : JsError) (w : World) : World :=
  on_ui (setLoading false)
        (console_error (lit "Error fetching Pokemon:") error w).

(** [fetchPokemon], run against the network [net] when the detail requests
    complete in the order [order].  While the aggregate promise is pending
    the function is suspended at its [await] and the world is as it was. *)
Definition fetchPokemon (net : Network) (order : list nat) (w : World)
  : World :=
  match list_endpoint net with
  | inl error => on_catch error w
  | inr results =>
      match Promise.all (fetchDetail net <$> results) order with
      | Promise.Fulfilled pokemonDetails =>
          on_ui (setLoading false) (on_ui (setPokemon pokemonDetails) w)
      | Promise.Rejected error => on_catch error w
      | Promise.Pending => w
      end
  end.

(** ** Events of the page and what is rendered *)

Inductive Event :=
| ClickCard (p : Pokemon.t)      (* a card of the grid, line 125 *)
| ClickBackdrop                  (* the overlay outside the panel, line 169 *)
| ClickPanel                     (* inside the panel: stopPropagation, line 173 *)
| ClickClose                     (* the close button, line 176 *)
| ChangeSearch (value : jsstring). (* the input, line 105 *)

Definition handle (st : State) (ev : Event) : State :=
  match ev with
  | ClickCard p => setSelectedPokemon (Some p) st
  | ClickBackdrop => setSelectedPokemon None st
  | ClickPanel => st
  | ClickClose => setSelectedPokemon None st
  | ChangeSearch value => setSearch value st
  end.

Definition run (st : State) (evs : list Event) : State := foldl handle st evs.

(** The conditions of the JSX (lines 108, 115, 160, 166). *)
Definition shows_count (st : State) : bool := truthy (search st).
Definition shows_spinner (st : State) : bool := loading st.
Definition shown_cards (st : State) : list Pokemon.t :=
  if loading st then [] else filteredPokemon (pokemon st) (search st).
Definition shows_empty_message (st : State) : bool :=
  negb (loading st)
  && (length (filteredPokemon (pokemon st) (search st)) =? 0)%nat.
Definition shows_overlay (st : State) : bool :=
  match selectedPokemon st with Some _ => true | None => false end.

(** The card label [#{p.id.toString().padStart(3, '0')}] and the two
    measurements of the overlay, [{height / 10}m] and [{weight / 10}kg]. *)
Definition card_label (p : Pokemon.t) : jsstring :=
  lit "#" ++ padStart0 3 (toString (Pokemon.id p)).

(** ** The selection machine of the specification

    States [Closed] and [Open e]; [select] opens on the entity whatever the
    state, [dismiss] closes. *)
Module Selection.
Inductive state := Closed | Open (e : Pokemon.t).
Inductive event := select (e : Pokemon.t) | dismiss.
Definition step (s : state) (ev : event) : state :=
  match ev with
  | select e => Open e
  | dismiss => Closed
  end.
Definition start : state := Closed.
End Selection.

(** The nullable [selectedPokemon] read as a state of that machine, and the
    page's events read as its events ([ClickPanel] and [ChangeSearch] are
    none of them). *)
Definition selection (st : State) : Selection.state :=
  match selectedPokemon st with
  | None => Selection.Closed
  | Some e => Selection.Open e
  end.

Definition selection_event (ev : Event) : option Selection.event :=
  match ev with
  | ClickCard p => Some (Selection.select p)
  | ClickBackdrop | ClickClose => Some Selection.dismiss
  | ClickPanel | ChangeSearch _ => None
  end.

(** ** Sample data: the three entities of the specification's scenario *)

Definition mkPokemon (id : Z) (name : string) (types : list string)
  : Pokemon.t :=
  Pokemon.mk id (lit name) (map lit types) None 7 69.

Definition bulbasaur := mkPokemon 1 "bulbasaur" ["grass"; "poison"].
Definition ivysaur := mkPokemon 2 "ivysaur" ["grass"; "poison"].
Definition pikachu := mkPokemon 25 "pikachu" ["electric"].
Definition sample : list Pokemon.t := [bulbasaur; ivysaur; pikachu].

(** A detail response for entity 25 with the two image references given,
    and a network that answers for three references, the second request
    failing when [broken] is set. *)
Definition pikachu_detail (artwork front : option jsstring) : Api.Detail :=
  {| Api.id := 25;
     Api.name := lit "pikachu";
     Api.types := [ {| Api.type := {| Api.ref_name := lit "electric" |} |} ];
     Api.sprites :=
       {| Api.front_default := front;
          Api.other :=
            {| Api.official_artwork :=
                 {| Api.artwork_front_default := artwork |} |} |};
     Api.height := 4;
     Api.weight := 60 |}.

Definition sample_detail (id : Z) (name : string) (types : list string)
  : Api.Detail :=
  {| Api.id := id;
     Api.name := lit name;
     Api.types :=
       map (λ t, {| Api.type := {| Api.ref_name := lit t |} |}) types;
     Api.sprites :=
       {| Api.front_default := None;
          Api.other :=
            {| Api.official_artwork :=
                 {| Api.artwork_front_default := None |} |} |};
     Api.height := 7;
     Api.weight := 69 |}.

Definition sample_refs : list Api.Ref :=
  [ {| Api.url := lit "1" |}; {| Api.url := lit "2" |};
    {| Api.url := lit "25" |} ].

Definition sample_network (broken : bool) : Network :=
  {| list_endpoint := inr sample_refs;
     detail_endpoint := λ u,
       if includes u (lit "25") then
         inr (sample_detail 25 "pikachu" ["electric"])
       else if includes u (lit "2") then
         if broken then inl (lit "TypeError: Failed to fetch")
         else inr (sample_detail 2 "ivysaur" ["grass"; "poison"])
       else inr (sample_detail 1 "bulbasaur" ["grass"; "poison"]) |}.

(** A network whose list request fails. *)
Definition offline : Network :=
  {| list_endpoint := inl (lit "TypeError: Failed to fetch");
     detail_endpoint := λ _, inl (lit "TypeError: Failed to fetch") |}.

(** A network with an empty catalog. *)
Definition empty_catalog : Network :=
  {| list_endpoint := inr [];
     detail_endpoint := λ _, inl (lit "TypeError: Failed to fetch") |}.

(** The entities selected in a state, and the nullable value that stands
    for a state of the selection machine. *)
Definition selected_entities (st : State) : list Pokemon.t :=
  match selectedPokemon st with
  | Some e => [e]
  | None => []
  end.

Definition nullable (s : Selection.state) : option Pokemon.t :=
  match s with
  | Selection.Closed => None
  | Selection.Open e => Some e
  end.

Definition selection_handle (s : Selection.state) (ev : Event)
  : Selection.state :=
  match selection_event ev with
  | Some e => Selection.step s e
  | None => s
  end.


(** The load fails: the list request fails, or the detail request of some
    reference fails and that failure is among the completions [order]. *)
Definition load_fails (net : Network) (order : list nat) : Prop :=
  (∃ error, list_endpoint net = inl error)
  ∨ (∃ results i p error,
       list_endpoint net = inr results
       ∧ results !! i = Some p
       ∧ detail_endpoint net (Api.url p) = inl error
       ∧ i ∈ order).

(** The slots of [Promise.all] still to be written. *)
Definition empty_slot {A} (o : option A) : bool :=
  match o with
  | None => true
  | Some _ => false
  end.
Definition empties {A} (vs : list (option A)) : nat :=
  length (List.filter empty_slot vs).

(** What holds of the aggregate of [Promise.all] between two deliveries:
    one slot per input, the count is the number of empty slots, a slot that
    is written holds the value its input was fulfilled with, and the
    aggregate is pending while a slot is empty and fulfilled with the slots
    once none is. *)
Record all_inv {A E} (outcomes : list (E + A)) (st : Promise.all_state A E)
  : Prop := {
  inv_length : length (Promise.values st) = length outcomes;
  inv_count :
    Promise.remainingElementsCount st = empties (Promise.values st);
  inv_values : ∀ j x,
    Promise.values st !! j = Some (Some x) → outcomes !! j = Some (inr x);
  inv_promise :
    match Promise.promise st with
    | Promise.Pending => (0 < Promise.remainingElementsCount st)%nat
    | Promise.Fulfilled v =>
        Promise.remainingElementsCount st = 0%nat
        ∧ v = omap id (Promise.values st)
    | Promise.Rejected _ => True
    end;
}.

(** ** The colour of a category badge (lines 64-86) *)

(** What [colors[type]] can be: a class name of the table, or, for a name
    that the table does not hold and every object inherits, that inherited
    member (a function, or the prototype itself: truthy, and no string). *)
Inductive lookup_value :=
| ClassName (cls : jsstring)
| Inherited (member : jsstring).

(** The object literal [colors]. *)
Definition color_table : list (jsstring * jsstring) :=
  [ (lit "normal", lit "bg-gray-400");
    (lit "fire", lit "bg-red-500");
    (lit "water", lit "bg-blue-500");
    (lit "electric", lit "bg-yellow-400");
    (lit "grass", lit "bg-green-500");
    (lit "ice", lit "bg-blue-200");
    (lit "fighting", lit "bg-red-700");
    (lit "poison", lit "bg-purple-500");
    (lit "ground", lit "bg-yellow-600");
    (lit "flying", lit "bg-indigo-400");
    (lit "psychic", lit "bg-pink-500");
    (lit "bug", lit "bg-green-400");
    (lit "rock", lit "bg-yellow-800");
    (lit "ghost", lit "bg-purple-700");
    (lit "dragon", lit "bg-indigo-700");
    (lit "dark", lit "bg-gray-800");
    (lit "steel", lit "bg-gray-500");
    (lit "fairy", lit "bg-pink-300") ].

Definition colors : gmap jsstring jsstring := list_to_map color_table.

(** The string-keyed members of [Object.prototype], which a property read
    on an object literal reaches when the literal has no such key. *)
Definition object_prototype_members : list jsstring :=
  lit <$> [ "constructor"; "hasOwnProperty"; "isPrototypeOf";
            "propertyIsEnumerable"; "toLocaleString"; "toString";
            "valueOf"; "__proto__"; "__defineGetter__"; "__defineSetter__";
            "__lookupGetter__"; "__lookupSetter__" ]%string.

(** [colors[type] || 'bg-gray-400']. *)
Definition getTypeColor (type : jsstring) : lookup_value :=
  match colors !! type with
  | Some cls => if truthy cls then ClassName cls
                else ClassName (lit "bg-gray-400")
  | None =>
      if bool_decide (type ∈ object_prototype_members) then Inherited type
      else ClassName (lit "bg-gray-400")
  end.

(** ** The count indicator (lines 108-112) *)

(** The number in [Found N Pokémon], when the line is rendered. *)
Definition found_count (st : State) : option nat :=
  if truthy (search st)
  then Some (length (filteredPokemon (pokemon st) (search st)))
  else None.

(** ** The session as a transition system

    An event can occur when the element that carries its handler is
    rendered: a card when the grid is (line 115) and the card is in it, the
    three handlers of the overlay when an entity is selected (line 166),
    the input always. *)
Definition enabled (st : State) (ev : Event) : Prop :=
  match ev with
  | ClickCard p => p ∈ shown_cards st
  | ClickBackdrop | ClickPanel | ClickClose => shows_overlay st = true
  | ChangeSearch _ => True
  end.

(** A step of the session: an enabled event is handled, or [fetchPokemon],
    started once on mount, moves on with the completions [order] it has
    seen.  Both ends of [fetchPokemon] clear the loading flag, so the flag
    tells that it has not finished. *)
Inductive step (net : Network) : World → World → Prop :=
| step_event w ev :
    enabled (ui w) ev → step net w (on_ui (λ st, handle st ev) w)
| step_load w order :
    loading (ui w) = true → step net w (fetchPokemon net order w).

Definition reachable (net : Network) (w : World) : Prop :=
  rtc (step net) initial w.

(** What every step keeps: before the load has finished there is no
    entity, no selection and no log entry; a selection is an element of the
    canonical list; the console holds one entry at most, and the list is
    empty when it holds one. *)
Record session_inv (w : World) : Prop := {
  inv_loading :
    loading (ui w) = true →
    pokemon (ui w) = [] ∧ selectedPokemon (ui w) = None ∧ console w = [];
  inv_selected :
    ∀ p, selectedPokemon (ui w) = Some p → p ∈ pokemon (ui w);
  inv_console :
    console w = [] ∨ (∃ entry, console w = [entry]) ∧ pokemon (ui w) = [];
}.

(** ** The words of the specification on strings and numbers *)

(** The code units on which the embedded case table is the Unicode one:
    Basic Latin and the Latin-1 Supplement. *)
Definition latin1 (s : jsstring) : Prop := Forall (λ c, c < 256) s.



(** The value of a string of decimal digits, read from the left. *)
Definition digit (c : code_unit) : bool := (48 <=? c) && (c <=? 57).
Fixpoint digits_value (acc : Z) (ds : jsstring) : option Z :=
  match ds with
  | [] => Some acc
  | c :: ds' =>
      if digit c then digits_value (10 * acc + Z.of_N (c - 48)) ds'
      else None
  end.

(** [ds] is the decimal string form of the natural number [n]: digits, one
    at least, no leading zero (the numeral of zero apart), no padding. *)
Definition plain_numeral (ds : jsstring) (n : Z) : Prop :=
  ds ≠ [] ∧ (∀ ds', ds = 48 :: ds' → ds' = []) ∧ digits_value 0 ds = Some n.

(** [d] is the decimal string form of the integer [z]. *)
Definition is_decimal_numeral (d : jsstring) (z : Z) : Prop :=
  if (z <? 0)%Z then ∃ ds, d = 45 :: ds ∧ plain_numeral ds (- z)
  else plain_numeral d z.


(** The code units of a decimal numeral: the ten digits and the sign. *)
Definition numeral_unit (c : code_unit) : Prop := 48 ≤ c ≤ 57 ∨ c = 45.

(** Boolean tests on code units, as propositions for [lia]. *)
Ltac unit_tests :=
  repeat match goal with
    | H : _ && _ = true |- _ => apply andb_true_iff in H as [? ?]
    | H : _ && _ = false |- _ => apply andb_false_iff in H as [?|?]
    | H : negb _ = true |- _ => apply negb_true_iff in H
    | H : negb _ = false |- _ => apply negb_false_iff in H
    | H : (_ <=? _) = true |- _ => apply N.leb_le in H
    | H : (_ <=? _) = false |- _ => apply N.leb_gt in H
    | H : (_ <? _) = true |- _ => apply N.ltb_lt in H
    | H : (_ <? _) = false |- _ => apply N.ltb_ge in H
    | H : (_ =? _) = true |- _ => apply N.eqb_eq in H
    | H : (_ =? _) = false |- _ => apply N.eqb_neq in H
    end.

(** * Properties *)

(** ** Strings *)

Section StringFacts.
Implicit Types (s q : jsstring) (c : code_unit).

Lemma truthy_nonempty s : truthy s = true ↔ s ≠ [].
Proof. destruct s; simpl; split; intros; congruence. Qed.

Lemma strict_equal_eq a b : strict_equal a b = true ↔ a = b.
Proof.
  revert b. induction a as [|c a IH]; intros [|d b]; simpl; try done.
  rewrite andb_true_iff, N.eqb_eq, IH. split.
  - by intros [-> ->].
  - intros H. by injection H.
Qed.

Lemma startsWith_spec s q : startsWith s q = true ↔ ∃ post, s = q ++ post.
Proof.
  revert s. induction q as [|c q IH]; intros s; simpl.
  - split; [intros _; by exists s | done].
  - destruct s as [|d s].
    + split; [done | intros [post H]; discriminate H].
    + rewrite andb_true_iff, N.eqb_eq, IH. split.
      * intros [-> [post ->]]. by exists post.
      * intros [post H]. injection H as -> ->. eauto.
Qed.

Lemma includes_spec s q : includes s q = true ↔ Substring q s.
Proof.
  unfold Substring. induction s as [|d s IH]; simpl.
  - rewrite orb_false_r, startsWith_spec. split.
    + intros [post H]. by exists [], post.
    + intros ([|? ?] & post & H); [by exists post | discriminate H].
  - rewrite orb_true_iff, startsWith_spec, IH. split.
    + intros [[post H] | (pre & post & ->)].
      * by exists [], post.
      * by exists (d :: pre), post.
    + intros ([|e pre] & post & H).
      * left. by exists post.
      * right. injection H as -> ->. by exists pre, post.
Qed.

Lemma Substring_Forall (P : code_unit → Prop) q s :
  Substring q s → Forall P s → Forall P q.
Proof.
  intros (pre & post & ->) H.
  apply Forall_app in H as [_ H]. by apply Forall_app in H as [H _].
Qed.
End StringFacts.

Example includes_mid : includes (lit "bulbasaur") (lit "basa") = true.
Proof. reflexivity. Qed.
Example toString_25 : toString 25 = lit "25".
Proof. reflexivity. Qed.
Example toString_0 : toString 0 = lit "0".
Proof. reflexivity. Qed.
Example toString_neg : toString (-7) = lit "-7".
Proof. reflexivity. Qed.
Example toString_exponent : toString (10 ^ 21) = lit "1e+21".
Proof. vm_compute. reflexivity. Qed.
Example toString_rounded :
  toString (2 ^ 60) = lit "1152921504606847000".
Proof. vm_compute. reflexivity. Qed.
Example upper_ss : toLowerCase (toUpperCase [223]) = lit "ss".
Proof. reflexivity. Qed.

(** ** Numerals and case *)

Lemma lower_unit_numeral c : numeral_unit (lower_unit c) → lower_unit c = c.
Proof.
  unfold numeral_unit, lower_unit.
  repeat case_match; intros; unit_tests; lia.
Qed.

Lemma numeral_lower_unit c : numeral_unit c → lower_unit c = c.
Proof.
  unfold numeral_unit, lower_unit.
  repeat case_match; intros; unit_tests; lia.
Qed.

Lemma string_of_uint_numeral d :
  Forall numeral_unit (lit (NilEmpty.string_of_uint d)).
Proof.
  induction d; simpl; constructor; trivial; unfold numeral_unit; simpl; lia.
Qed.

Lemma numeral_units z : Forall numeral_unit (numeral z).
Proof.
  assert (Hu : ∀ d, Forall numeral_unit (lit (NilZero.string_of_uint d))).
  { intros d. destruct d; try apply string_of_uint_numeral.
    simpl. constructor; [unfold numeral_unit; simpl; lia | constructor]. }
  unfold numeral, NilZero.string_of_int.
  destruct (Z.to_int z); [apply Hu |].
  simpl. constructor; [right; reflexivity | apply Hu].
Qed.

(** On a safe integer [toString] is the decimal numeral. *)
Lemma toString_safe z : safe_integer z = true → toString z = numeral z.
Proof. unfold toString. by intros ->. Qed.

(** A query occurs in a numeral exactly when its lower-cased form does:
    lower-casing neither produces nor alters a digit or a sign. *)
Lemma includes_numeral_lower z q :
  includes (numeral z) (toLowerCase q) = includes (numeral z) q.
Proof.
  assert (Hfix : ∀ q', Forall numeral_unit (toLowerCase q') ∨
                       Forall numeral_unit q' → toLowerCase q' = q').
  { induction q' as [|c q' IH]; [done |]. simpl. intros [H | H].
    - apply Forall_cons in H as [Hc H].
      by rewrite (lower_unit_numeral c Hc), IH by auto.
    - apply Forall_cons in H as [Hc H].
      by rewrite (numeral_lower_unit c Hc), IH by auto. }
  apply eq_true_iff_eq. rewrite !includes_spec. split; intros H.
  - rewrite <- (Hfix q); [done | left].
    eapply Substring_Forall; [exact H | apply numeral_units].
  - rewrite (Hfix q); [done | right].
    eapply Substring_Forall; [exact H | apply numeral_units].
Qed.

(** The numeral of a positive integer has no leading zero. *)
Lemma unorm_head d :
  Decimal.unorm d = Decimal.D0 Decimal.Nil ∨ ∀ u, Decimal.unorm d ≠ Decimal.D0 u.
Proof. induction d; simpl; auto; right; intros u; discriminate. Qed.

Lemma numeral_no_leading_zero z :
  (0 < z)%Z → ∃ c s, numeral z = c :: s ∧ c ≠ 48.
Proof.
  destruct z as [|p|p]; try lia. intros _.
  pose proof (DecimalPos.Unsigned.to_of (Pos.to_uint p)) as Hn.
  rewrite DecimalPos.Unsigned.of_to in Hn. simpl in Hn.
  pose proof (DecimalPos.Unsigned.to_uint_nonzero p) as Hz.
  unfold numeral. simpl.
  destruct (unorm_head (Pos.to_uint p)) as [H0 | Hh]; [congruence |].
  rewrite <- Hn in Hh.
  destruct (Pos.to_uint p) as [|u|u|u|u|u|u|u|u|u|u] eqn:E; simpl;
    try (eexists _, _; split; [reflexivity | discriminate]).
  destruct (Hh u eq_refl).
Qed.

(** The value of a numeral is the integer it was written from. *)
Lemma digits_value_acc u acc :
  digits_value (Z.pos acc) (lit (NilEmpty.string_of_uint u))
  = Some (Z.pos (Pos.of_uint_acc u acc)).
Proof.
  revert acc. induction u as [|u IH|u IH|u IH|u IH|u IH|u IH|u IH|u IH|u IH|u IH];
    intros acc; [done | ..]; simpl;
    match goal with
    | |- digits_value ?v _ = Some (Z.pos (Pos.of_uint_acc _ ?a)) =>
        replace v with (Z.pos a) by lia; apply IH
    end.
Qed.

Lemma digits_value_of_uint u :
  digits_value 0 (lit (NilEmpty.string_of_uint u))
  = Some (Z.of_N (Pos.of_uint u)).
Proof.
  induction u as [|u IH|u IH|u IH|u IH|u IH|u IH|u IH|u IH|u IH|u IH];
    [done | exact IH | ..]; exact (digits_value_acc u _).
Qed.

Lemma numeral_pos_plain p :
  plain_numeral (lit (NilZero.string_of_uint (Pos.to_uint p))) (Z.pos p).
Proof.
  assert (Hs : NilZero.string_of_uint (Pos.to_uint p)
               = NilEmpty.string_of_uint (Pos.to_uint p)).
  { pose proof (DecimalPos.Unsigned.to_uint_nonnil p).
    by destruct (Pos.to_uint p). }
  destruct (numeral_no_leading_zero (Z.pos p)) as (c & t & Hc & Hne); [lia |].
  unfold numeral in Hc. simpl in Hc.
  split; [| split].
  - by rewrite Hc.
  - intros ds' H. rewrite Hc in H. injection H as -> _. done.
  - by rewrite Hs, digits_value_of_uint, DecimalPos.Unsigned.of_to.
Qed.

Lemma numeral_is_decimal z : is_decimal_numeral (numeral z) z.
Proof.
  unfold is_decimal_numeral. destruct z as [|p|p]; simpl.
  - split; [done |]. split; [| done]. intros ds' H. by injection H.
  - apply numeral_pos_plain.
  - eexists. split; [reflexivity |]. apply numeral_pos_plain.
Qed.

(** ** Case, letter by letter *)






(** ** The search filter *)

Section Filter.
Implicit Types (L : list Pokemon.t) (q : jsstring) (p : Pokemon.t).

Lemma filteredPokemon_empty L : filteredPokemon L [] = L.
Proof. reflexivity. Qed.

Lemma filteredPokemon_nonempty L c q :
  filteredPokemon L (c :: q)
  = List.filter (matchesQuery (toLowerCase (c :: q))) L.
Proof. reflexivity. Qed.


Lemma filter_sublist {A} (f : A → bool) (l : list A) :
  sublist (List.filter f l) l.
Proof.
  induction l as [|x l IH]; simpl; [constructor |].
  destruct (f x); by constructor.
Qed.

(** Upper-casing an ASCII query and lower-casing it again gives the
    lower-cased query. *)
Lemma lower_upper_ascii q :
  forallb is_ascii q = true → toLowerCase (toUpperCase q) = toLowerCase q.
Proof.
  induction q as [|c q IH]; [done |]. simpl.
  rewrite andb_true_iff. intros [Hc Hq].
  unfold toLowerCase in *. rewrite map_app, (IH Hq).
  enough (map lower_unit (upper_unit c) = [lower_unit c]) as -> by done.
  clear IH Hq. unfold is_ascii in Hc. apply N.ltb_lt in Hc.
  assert (Htable :
    forallb (λ d, strict_equal (map lower_unit (upper_unit d))
                               [lower_unit d])
            (map N.of_nat (seq 0 128)) = true) by (vm_compute; reflexivity).
  rewrite forallb_forall in Htable.
  apply strict_equal_eq, Htable, in_map_iff.
  exists (N.to_nat c). split; [lia | apply in_seq; lia].
Qed.

Lemma truthy_toUpperCase q : truthy (toUpperCase q) = truthy q.
Proof.
  destruct q as [|c q]; [done |]. simpl.
  unfold upper_unit. by repeat case_match.
Qed.

(** The filter depends on the query through its lower-cased form and its
    emptiness only. *)
Lemma filteredPokemon_ext L q q' :
  truthy q = truthy q' → toLowerCase q = toLowerCase q' →
  filteredPokemon L q = filteredPokemon L q'.
Proof. unfold filteredPokemon. by intros -> ->. Qed.
End Filter.

(** The scenario of the specification. *)
Example query_grass : filteredPokemon sample (lit "grass") = [bulbasaur; ivysaur].
Proof. reflexivity. Qed.
Example query_25 : filteredPokemon sample (lit "25") = [pikachu].
Proof. reflexivity. Qed.
Example query_PIKA : filteredPokemon sample (lit "PIKA") = [pikachu].
Proof. reflexivity. Qed.
Example query_none : filteredPokemon sample (lit "") = sample.
Proof. reflexivity. Qed.

(** The card shows the identifier padded to three digits, the filter reads
    the bare numeral: [001] is on the card of entity 1 and does not find it. *)
Example padded_label_not_searched :
  card_label bulbasaur = lit "#001"
  ∧ filteredPokemon [bulbasaur] (lit "001") = [].
Proof. split; reflexivity. Qed.



(** C6. The filter at the empty query returns the list unchanged; the test
    for emptiness does not trim, so any query with a first code unit, a
    blank included, goes through [pokemon.filter] with the matching
    predicate: a query of one space on the sample list finds nothing. *)
Theorem filteredPokemon_empty_query :
  (∀ L, filteredPokemon L [] = L)
  ∧ (∀ L c q, filteredPokemon L (c :: q)
              = List.filter (matchesQuery (toLowerCase (c :: q))) L)
  ∧ filteredPokemon sample (lit " ") = []
  ∧ filteredPokemon sample (lit "  ") = [].
Proof.
  split; [exact filteredPokemon_empty |].
  split; [exact filteredPokemon_nonempty |].
  split; reflexivity.
Qed.

(** C7. For every query (the non-empty ones in particular) and every
    entity list, the filter result is a subsequence of the list: elements
    of the list in their original relative order, none repeated, none
    added. *)
Theorem filteredPokemon_sublist L q : sublist (filteredPokemon L q) L.
Proof.
  unfold filteredPokemon. destruct (truthy q); simpl.
  - apply filter_sublist.
  - reflexivity.
Qed.

(** C8, as stated, fails: the query of the one letter U+00DF (sharp s)
    finds nothing in the sample list, and its upper-case form [SS] finds
    the two entities of category [grass]. *)
Lemma upper_case_query_counterexample :
  filteredPokemon sample [223] = []
  ∧ filteredPokemon sample (toUpperCase [223]) = [bulbasaur; ivysaur]
  ∧ filteredPokemon sample [223]
    ≠ filteredPokemon sample (toUpperCase [223]).
Proof. split; [reflexivity |]. split; [reflexivity |]. discriminate. Qed.

(** C8, amended. For every entity list and every query made of ASCII code
    units, the filter result is the same for the query and for its
    upper-case form. *)
Theorem filteredPokemon_upper_ascii L q :
  forallb is_ascii q = true →
  filteredPokemon L q = filteredPokemon L (toUpperCase q).
Proof.
  intros Hq. apply filteredPokemon_ext.
  - symmetry. apply truthy_toUpperCase.
  - symmetry. by apply lower_upper_ascii.
Qed.

Lemma filteredPokemon_upper_ascii_witness :
  forallb is_ascii (lit "pIka") = true
  ∧ filteredPokemon sample (lit "pIka")
    = filteredPokemon sample (toUpperCase (lit "pIka")).
Proof.
  split; [reflexivity |].
  apply (filteredPokemon_upper_ascii sample (lit "pIka")). reflexivity.
Defined.

(** ** [Promise.all] *)

Section PromiseAll.
Context {A E : Type}.
Local Open Scope nat_scope.
Implicit Types (st : Promise.all_state A E) (vs : list (option A)).
Implicit Types (outcomes : list (E + A)) (order : list nat).

Lemma empties_insert vs i x :
  vs !! i = Some None →
  empties vs = S (empties (<[i := Some x]> vs)).
Proof.
  unfold empties. revert i.
  induction vs as [|o vs IH]; intros [|i] H; try done; simpl in *.
  - by injection H as ->.
  - destruct (empty_slot o); simpl; by rewrite (IH i H).
Qed.

Lemma empties_zero vs i :
  empties vs = 0%nat → i < length vs → ∃ x, vs !! i = Some (Some x).
Proof.
  unfold empties. revert i.
  induction vs as [|[y|] vs IH]; intros i H Hi; simpl in *; try done;
    try lia.
  destruct i as [|i]; [by exists y |]. apply IH; [done | lia].
Qed.

Lemma empties_full (xs : list A) : empties (Some <$> xs) = 0%nat.
Proof. unfold empties. by induction xs. Qed.

Lemma omap_id_full (xs : list A) : omap id (Some <$> xs) = xs.
Proof. induction xs as [|x xs IH]; [done |]. simpl. f_equal. apply IH. Qed.

Lemma all_start_inv outcomes :
  all_inv outcomes (Promise.all_start (length outcomes)).
Proof.
  unfold Promise.all_start.
  destruct (length outcomes) as [|n] eqn:Hn.
  - by split.
  - assert (Hc : empties (replicate (S n) (@None A)) = S n).
    { unfold empties. generalize (S n). intros k.
      induction k; simpl; congruence. }
    split;
      cbn [Promise.values Promise.remainingElementsCount Promise.promise].
    + by rewrite length_replicate.
    + by rewrite Hc.
    + intros j x H. apply lookup_replicate in H as [H _]. discriminate H.
    + lia.
Qed.

Lemma deliver_inv outcomes st i :
  all_inv outcomes st → all_inv outcomes (Promise.deliver outcomes st i).
Proof.
  intros [Hlen Hcount Hvals Hprom]. unfold Promise.deliver.
  destruct (outcomes !! i) as [[e|x]|] eqn:Hi; [| |by split].
  - unfold Promise.reject.
    destruct (Promise.promise st) eqn:Hp; split; simpl; try done.
    all: by rewrite Hp.
  - unfold Promise.on_fulfilled.
    destruct (Promise.values st !! i) as [[y|]|] eqn:Hslot;
      [by split | | by split].
    pose proof (empties_insert _ _ x Hslot) as Hins.
    assert (Hvals' : ∀ j z,
      <[i := Some x]> (Promise.values st) !! j = Some (Some z) →
      outcomes !! j = Some (inr z)).
    { intros j z Hj. destruct (decide (i = j)) as [<- | Hne].
      - rewrite list_lookup_insert_eq in Hj
          by (by apply lookup_lt_Some in Hslot).
        congruence.
      - rewrite list_lookup_insert_ne in Hj by done. by apply Hvals. }
    rewrite Hcount, Hins. simpl.
    destruct (empties (<[i := Some x]> (Promise.values st))) as [|r] eqn:Hr.
    + unfold Promise.resolve. simpl.
      destruct (Promise.promise st) eqn:Hp; split; simpl;
        rewrite ?length_insert; try done.
      destruct Hprom as [Hz _]. lia.
    + split; simpl; rewrite ?length_insert; try done.
      destruct (Promise.promise st) eqn:Hp; [lia | | done].
      destruct Hprom as [Hz _]. lia.
Qed.

Lemma foldl_deliver_inv outcomes st order :
  all_inv outcomes st →
  all_inv outcomes (foldl (Promise.deliver outcomes) st order).
Proof.
  revert st. induction order as [|i order IH]; intros st H; [done |].
  simpl. by apply IH, deliver_inv.
Qed.

(** *** Rejection *)

Lemma deliver_rejected outcomes st i e :
  Promise.promise st = Promise.Rejected e →
  Promise.promise (Promise.deliver outcomes st i) = Promise.Rejected e.
Proof.
  intros Hp. unfold Promise.deliver.
  destruct (outcomes !! i) as [[e'|x]|]; [| |done].
  - unfold Promise.reject. by rewrite Hp.
  - unfold Promise.on_fulfilled.
    destruct (Promise.values st !! i) as [[y|]|]; try done.
    destruct (pred _); [| done].
    unfold Promise.resolve. simpl. by rewrite Hp.
Qed.

Lemma foldl_deliver_rejected outcomes st order e :
  Promise.promise st = Promise.Rejected e →
  Promise.promise (foldl (Promise.deliver outcomes) st order)
  = Promise.Rejected e.
Proof.
  revert st. induction order as [|i order IH]; intros st H; [done |].
  simpl. by apply IH, deliver_rejected.
Qed.

(** An aggregate with a failing input is never fulfilled. *)
Lemma failing_not_fulfilled outcomes st i e v :
  all_inv outcomes st → outcomes !! i = Some (inl e) →
  Promise.promise st ≠ Promise.Fulfilled v.
Proof.
  intros [Hlen Hcount Hvals Hprom] Hi Hp. rewrite Hp in Hprom.
  destruct Hprom as [Hz _]. rewrite Hcount in Hz.
  destruct (empties_zero _ i Hz) as [x Hx].
  - rewrite Hlen. by apply lookup_lt_Some in Hi.
  - apply Hvals in Hx. congruence.
Qed.

(** Once the failing input [i] has settled, the aggregate is rejected,
    whatever settles before and after. *)
Lemma all_rejected outcomes order i e :
  outcomes !! i = Some (inl e) → i ∈ order →
  ∃ e', Promise.all outcomes order = Promise.Rejected e'.
Proof.
  intros Hi Hin. apply list_elem_of_split in Hin as (l1 & l2 & ->).
  unfold Promise.all. rewrite foldl_app. simpl.
  set (st := foldl _ _ l1).
  assert (Hinv : all_inv outcomes st)
    by apply foldl_deliver_inv, all_start_inv.
  assert (∃ e', Promise.promise (Promise.deliver outcomes st i)
                = Promise.Rejected e') as [e' He'].
  { unfold Promise.deliver. rewrite Hi. unfold Promise.reject.
    destruct (Promise.promise st) as [|v|e0] eqn:Hp; simpl; eauto.
    by destruct (failing_not_fulfilled _ _ _ _ v Hinv Hi). }
  exists e'. by apply foldl_deliver_rejected.
Qed.

(** *** Fulfilment *)

Lemma deliver_keeps outcomes st i j x :
  Promise.values st !! j = Some (Some x) →
  Promise.values (Promise.deliver outcomes st i) !! j = Some (Some x).
Proof.
  intros Hj. unfold Promise.deliver.
  destruct (outcomes !! i) as [[e|y]|]; [| |done].
  - unfold Promise.reject. by destruct (Promise.promise st).
  - unfold Promise.on_fulfilled.
    destruct (Promise.values st !! i) as [[z|]|] eqn:Hslot; try done.
    assert (i ≠ j) by congruence.
    assert (<[i := Some y]> (Promise.values st) !! j = Some (Some x))
      by by rewrite list_lookup_insert_ne.
    destruct (pred _); [| done].
    unfold Promise.resolve. simpl. by destruct (Promise.promise st).
Qed.

Lemma deliver_fills outcomes st i x :
  all_inv outcomes st → outcomes !! i = Some (inr x) →
  Promise.values (Promise.deliver outcomes st i) !! i = Some (Some x).
Proof.
  intros [Hlen Hcount Hvals Hprom] Hi. unfold Promise.deliver. rewrite Hi.
  unfold Promise.on_fulfilled.
  destruct (Promise.values st !! i) as [[z|]|] eqn:Hslot.
  - pose proof (Hvals _ _ Hslot). congruence.
  - assert (<[i := Some x]> (Promise.values st) !! i = Some (Some x)).
    { apply list_lookup_insert_eq. by apply lookup_lt_Some in Hslot. }
    destruct (pred _); [| done].
    unfold Promise.resolve. simpl. by destruct (Promise.promise st).
  - apply lookup_ge_None in Hslot. apply lookup_lt_Some in Hi. lia.
Qed.

Lemma foldl_deliver_keeps outcomes st order j x :
  Promise.values st !! j = Some (Some x) →
  Promise.values (foldl (Promise.deliver outcomes) st order) !! j
  = Some (Some x).
Proof.
  revert st. induction order as [|i order IH]; intros st H; [done |].
  simpl. by apply IH, deliver_keeps.
Qed.

Lemma foldl_deliver_fills outcomes st order i x :
  all_inv outcomes st → outcomes !! i = Some (inr x) → i ∈ order →
  Promise.values (foldl (Promise.deliver outcomes) st order) !! i
  = Some (Some x).
Proof.
  intros Hinv Hi Hin. apply list_elem_of_split in Hin as (l1 & l2 & ->).
  rewrite foldl_app. simpl.
  apply foldl_deliver_keeps, deliver_fills; [| done].
  by apply foldl_deliver_inv.
Qed.

Lemma deliver_not_rejected (xs : list A) st i :
  (∀ e, Promise.promise st ≠ Promise.Rejected e) →
  ∀ e, Promise.promise (Promise.deliver (inr <$> xs) st i)
       ≠ @Promise.Rejected (list A) E e.
Proof.
  intros Hp e. unfold Promise.deliver. rewrite list_lookup_fmap.
  destruct (xs !! i) as [x|]; simpl; [| apply Hp].
  unfold Promise.on_fulfilled.
  destruct (Promise.values st !! i) as [[z|]|]; try apply Hp.
  destruct (pred _); [| apply Hp].
  unfold Promise.resolve. simpl.
  destruct (Promise.promise st) eqn:Hq; simpl; [done | done |].
  intros Heq. by destruct (Hp e).
Qed.

Lemma foldl_deliver_not_rejected (xs : list A) st order :
  (∀ e, Promise.promise st ≠ Promise.Rejected e) →
  ∀ e, Promise.promise (foldl (Promise.deliver (inr <$> xs)) st order)
       ≠ @Promise.Rejected (list A) E e.
Proof.
  revert st. induction order as [|i order IH]; intros st H; [done |].
  simpl. by apply IH, deliver_not_rejected.
Qed.

(** When every input is fulfilled and every input has settled, the
    aggregate is fulfilled with the values in the order of the inputs,
    whatever the order in which they settled. *)
Lemma all_fulfilled (xs : list A) order :
  (∀ i, i < length xs → i ∈ order) →
  Promise.all (E := E) (inr <$> xs) order = Promise.Fulfilled xs.
Proof.
  intros Hcover. unfold Promise.all.
  set (st := foldl _ _ order).
  assert (Hinv : all_inv (inr <$> xs) st)
    by apply foldl_deliver_inv, all_start_inv.
  assert (Hvs : Promise.values st = Some <$> xs).
  { apply list_eq. intros i. rewrite list_lookup_fmap.
    destruct (xs !! i) as [x|] eqn:Hx; simpl.
    - apply foldl_deliver_fills.
      + apply all_start_inv.
      + by rewrite list_lookup_fmap, Hx.
      + apply Hcover. by apply lookup_lt_Some in Hx.
    - apply lookup_ge_None. apply lookup_ge_None in Hx.
      rewrite (inv_length _ _ Hinv), length_fmap. lia. }
  assert (Hnr : ∀ e, Promise.promise st ≠ Promise.Rejected e).
  { apply foldl_deliver_not_rejected. intros e.
    unfold Promise.all_start.
    destruct (length (inr <$> xs)); simpl; discriminate. }
  destruct Hinv as [_ Hcount _ Hprom].
  rewrite Hvs, empties_full in Hcount.
  destruct (Promise.promise st) as [|v|e] eqn:Hp.
  - lia.
  - destruct Hprom as [_ ->]. by rewrite Hvs, omap_id_full.
  - by destruct (Hnr e).
Qed.
End PromiseAll.

(** ** The catalog loader *)

Section Loader.
Local Open Scope nat_scope.
Implicit Types (net : Network) (order : list nat) (w : World).

Lemma fetchDetail_all net results details :
  Forall2 (λ p d, detail_endpoint net (Api.url p) = inr d) results details →
  fetchDetail net <$> results
  = inr <$> (normalize <$> details).
Proof.
  induction 1 as [|p d results details Hp _ IH]; [done |].
  rewrite !fmap_cons, IH. f_equal. unfold fetchDetail. by rewrite Hp.
Qed.

Lemma fetchPokemon_fails net order w :
  load_fails net order → ∃ error, fetchPokemon net order w = on_catch error w.
Proof.
  unfold fetchPokemon.
  intros [[error ->] | (results & i & p & error & -> & Hi & Hp & Hin)].
  - by exists error.
  - destruct (all_rejected (fetchDetail net <$> results) order i error)
      as [error' ->]; [| done | by exists error'].
    rewrite list_lookup_fmap, Hi. simpl. unfold fetchDetail. by rewrite Hp.
Qed.
End Loader.

(** The scenarios of the specification: three references whose detail
    requests complete out of order, and the same with the second request
    failing. *)
Example load_out_of_order :
  fetchPokemon (sample_network false) [1; 2; 0]%nat initial
  = {| ui := {| pokemon := sample; search := []; loading := false;
                selectedPokemon := None |};
       console := [] |}.
Proof. reflexivity. Qed.

Example load_one_failure :
  fetchPokemon (sample_network true) [2; 1; 0]%nat initial
  = {| ui := {| pokemon := []; search := []; loading := false;
                selectedPokemon := None |};
       console := [(lit "Error fetching Pokemon:",
                    lit "TypeError: Failed to fetch")] |}.
Proof. reflexivity. Qed.

(** What the page shows after the failed load: no spinner, no card, no
    count, no overlay, and the empty-state message. *)
Example view_after_failure :
  let st := ui (fetchPokemon (sample_network true) [2; 1; 0]%nat initial) in
  shows_spinner st = false
  ∧ shown_cards st = []
  ∧ shows_count st = false
  ∧ shows_overlay st = false
  ∧ shows_empty_message st = true.
Proof. repeat split. Qed.

(** While a request is outstanding the load is neither done nor failed. *)
Example load_pending :
  fetchPokemon (sample_network false) [1; 2]%nat initial = initial.
Proof. reflexivity. Qed.

(** C2. If the list request fails or a detail request fails, the load
    fails as a whole: whatever the world, the [catch] block runs and
    nothing else does; from the initial world the loading flag ends up
    false, the canonical list is still empty, the console holds exactly one
    entry, and the state the page renders from is the one an empty catalog
    leaves, with no trace of the error. *)
Theorem load_failure_atomic net order :
  load_fails net order →
  (∀ w, ∃ error, fetchPokemon net order w = on_catch error w)
  ∧ loading (ui (fetchPokemon net order initial)) = false
  ∧ pokemon (ui (fetchPokemon net order initial)) = []
  ∧ length (console (fetchPokemon net order initial)) = 1%nat
  ∧ ui (fetchPokemon net order initial)
    = ui (fetchPokemon empty_catalog [] initial).
Proof.
  intros Hf. split; [intros w; by apply fetchPokemon_fails |].
  destruct (fetchPokemon_fails net order initial Hf) as [error ->].
  by repeat split.
Qed.

Lemma load_failure_atomic_witness :
  load_fails (sample_network true) [0; 2; 1]%nat
  ∧ loading (ui (fetchPokemon (sample_network true) [0; 2; 1]%nat initial))
    = false
  ∧ pokemon (ui (fetchPokemon (sample_network true) [0; 2; 1]%nat initial))
    = []
  ∧ length (console (fetchPokemon (sample_network true) [0; 2; 1]%nat
                       initial)) = 1%nat.
Proof.
  assert (H : load_fails (sample_network true) [0; 2; 1]%nat).
  { right.
    exists sample_refs, 1%nat, {| Api.url := lit "2" |},
      (lit "TypeError: Failed to fetch").
    repeat split; try reflexivity.
    apply list_elem_of_In. simpl. auto. }
  split; [exact H |].
  pose proof (load_failure_atomic (sample_network true) [0; 2; 1]%nat H)
    as (_ & H1 & H2 & H3 & _).
  auto.
Defined.

(** C3. For every sequence of references whose detail requests all
    succeed and every order in which these requests complete, the canonical
    list is the list of the normalised details in the order of the
    references: the entity at position [i] is the normalised answer to the
    request for reference [i]. *)
Theorem fork_join_order net results details order w :
  list_endpoint net = inr results →
  Forall2 (λ p d, detail_endpoint net (Api.url p) = inr d) results details →
  order ≡ₚ seq 0 (length results) →
  Promise.all (fetchDetail net <$> results) order
  = Promise.Fulfilled (normalize <$> details)
  ∧ pokemon (ui (fetchPokemon net order w)) = normalize <$> details
  ∧ loading (ui (fetchPokemon net order w)) = false
  ∧ ∀ i p, results !! i = Some p →
      ∃ d, detail_endpoint net (Api.url p) = inr d
           ∧ pokemon (ui (fetchPokemon net order w)) !! i
             = Some (normalize d).
Proof.
  intros Hlist Hdetails Horder.
  assert (Hall : Promise.all (fetchDetail net <$> results) order
                 = Promise.Fulfilled (normalize <$> details)).
  { rewrite (fetchDetail_all _ _ _ Hdetails). apply all_fulfilled.
    intros i Hi. rewrite Horder. apply elem_of_seq.
    rewrite length_fmap, <- (Forall2_length _ _ _ Hdetails) in Hi. lia. }
  unfold fetchPokemon. rewrite Hlist, Hall. simpl.
  repeat split. intros i p Hi.
  destruct (Forall2_lookup_l _ _ _ _ _ Hdetails Hi) as (d & Hd & Hp).
  exists d. split; [done |]. by rewrite list_lookup_fmap, Hd.
Qed.

Lemma fork_join_order_witness :
  list_endpoint (sample_network false) = inr sample_refs
  ∧ [1; 2; 0]%nat ≡ₚ seq 0 (length sample_refs)
  ∧ pokemon (ui (fetchPokemon (sample_network false) [1; 2; 0]%nat initial))
    = normalize
        <$> [sample_detail 1 "bulbasaur" ["grass"; "poison"];
             sample_detail 2 "ivysaur" ["grass"; "poison"];
             sample_detail 25 "pikachu" ["electric"]].
Proof.
  assert (Hperm : [1; 2; 0]%nat ≡ₚ seq 0 (length sample_refs)).
  { simpl. eapply perm_trans; [apply perm_skip, perm_swap | apply perm_swap]. }
  split; [reflexivity |]. split; [exact Hperm |].
  apply (fork_join_order (sample_network false) sample_refs
           [sample_detail 1 "bulbasaur" ["grass"; "poison"];
            sample_detail 2 "ivysaur" ["grass"; "poison"];
            sample_detail 25 "pikachu" ["electric"]]
           [1; 2; 0]%nat initial).
  - reflexivity.
  - repeat constructor.
  - exact Hperm.
Defined.

(** ** Normalisation *)

(** C9, as stated, fails: with the empty string as official artwork (a
    string, not an absent value) the sprite stored is the front sprite. *)
Lemma sprite_fallback_counterexample :
  let detail := pikachu_detail (Some []) (Some (lit "front.png")) in
  preferred_image detail ≠ None
  ∧ Pokemon.sprite (normalize detail) = fallback_image detail
  ∧ Pokemon.sprite (normalize detail) ≠ preferred_image detail.
Proof. simpl. split; [discriminate |]. split; [reflexivity | discriminate]. Qed.

(** C9, amended. The normalisation stores the official artwork, and falls
    back to the front sprite exactly when the official artwork is absent or
    is the empty string; whenever the official artwork is absent and the
    front sprite is present, the sprite stored is the front sprite. *)
Theorem sprite_selection detail :
  (preferred_image detail = None ∨ preferred_image detail = Some [] →
   Pokemon.sprite (normalize detail) = fallback_image detail)
  ∧ (preferred_image detail ≠ None → preferred_image detail ≠ Some [] →
     Pokemon.sprite (normalize detail) = preferred_image detail)
  ∧ (∀ s, preferred_image detail = None → fallback_image detail = Some s →
          Pokemon.sprite (normalize detail) = Some s).
Proof.
  simpl. unfold js_or.
  destruct (preferred_image detail) as [[|c a]|]; simpl.
  - split; [done |]. split; [done | intros s H; discriminate H].
  - split; [intros [H | H]; discriminate H |].
    split; [done | intros s H; discriminate H].
  - split; [done |]. split; [done | by intros s _ ->].
Qed.

Lemma sprite_selection_witness :
  (Pokemon.sprite (normalize (pikachu_detail None (Some (lit "front.png"))))
   = Some (lit "front.png"))
  ∧ (Pokemon.sprite
       (normalize (pikachu_detail (Some (lit "art.png"))
                                  (Some (lit "front.png"))))
     = Some (lit "art.png")).
Proof.
  split.
  - apply (proj2 (proj2 (sprite_selection
                           (pikachu_detail None (Some (lit "front.png"))))));
      reflexivity.
  - apply (proj1 (proj2 (sprite_selection
                           (pikachu_detail (Some (lit "art.png"))
                                           (Some (lit "front.png"))))));
      discriminate.
Defined.

(** ** Selection *)

Lemma selection_run st evs :
  selection (run st evs) = foldl selection_handle (selection st) evs.
Proof.
  revert st. induction evs as [|ev evs IH]; intros st; [done |].
  simpl. rewrite IH. f_equal. by destruct ev.
Qed.

(** C4. The nullable [selectedPokemon] is the machine with the states
    [Closed] and [Open e] and no other: the two correspond one to one, the
    page starts in [Closed], every event of the page moves the selection as
    the machine's [select] or [dismiss] does (or leaves it alone), along
    every sequence of events.  A click on a card yields [Open] of that
    card's entity from any state, a dismissal yields [Closed], and at no
    time is more than one entity selected. *)
Theorem selection_machine :
  selection (ui initial) = Selection.start
  ∧ (∀ st, nullable (selection st) = selectedPokemon st)
  ∧ (∀ st s, selection (setSelectedPokemon (nullable s) st) = s)
  ∧ (∀ st e, selection (handle st (ClickCard e)) = Selection.Open e)
  ∧ (∀ st, selection (handle st ClickBackdrop) = Selection.Closed)
  ∧ (∀ st, selection (handle st ClickClose) = Selection.Closed)
  ∧ (∀ st ev, selection (handle st ev) = selection_handle (selection st) ev)
  ∧ (∀ st evs,
       selection (run st evs) = foldl selection_handle (selection st) evs)
  ∧ (∀ st evs e,
       selection (run st (evs ++ [ClickCard e])) = Selection.Open e)
  ∧ (∀ st evs, (length (selected_entities (run st evs)) ≤ 1)%nat).
Proof.
  repeat split.
  - intros st. unfold selection. by destruct (selectedPokemon st).
  - intros st s. by destruct s.
  - intros st ev. by destruct ev.
  - apply selection_run.
  - intros st evs e. unfold run. by rewrite foldl_snoc.
  - intros st evs. unfold selected_entities.
    destruct (selectedPokemon (run st evs)); simpl; lia.
Qed.

(** ** The empty-state message *)

(** C5. The claim: the message is displayed exactly when loading is
    complete, the query is non-empty and the filtered result count is
    zero.  The condition of line 160 leaves the query out: after a failed
    load, with no query typed, the message is displayed, quoting the
    empty query, while the count indicator next to it (line 108) is held
    back by its test on the query. *)
Theorem empty_message_without_query :
  let st := ui (fetchPokemon offline [] initial) in
  shows_empty_message st = true
  ∧ shows_count st = false
  ∧ search st = []
  ∧ ¬ (shows_empty_message st = true ↔
       loading st = false
       ∧ truthy (search st) = true
       ∧ length (filteredPokemon (pokemon st) (search st)) = 0%nat).
Proof.
  simpl. split; [reflexivity |]. split; [reflexivity |].
  split; [reflexivity |].
  intros [H _]. destruct (H eq_refl) as (_ & H' & _). discriminate H'.
Qed.

(** ** Display of the measurements *)

(** The two branches of [toString] agree where they meet: on the
    identifiers of the catalog, and on safe integers up to the largest
    one, of either sign, the shortest numeral that rounds back is the
    decimal numeral. *)
Lemma numberToString_identifier :
  forallb (λ id, strict_equal (numberToString (JsNumber.of_Z id)) (numeral id))
          ((Z.of_nat <$> seq 1 151)
           ++ [1000; 123456789; 4503599627370497; 9007199254740991;
               999999999999999; 1000000000000000; 8007199254740993;
               -1; -25; -9007199254740991]%Z) = true.
Proof. vm_compute. reflexivity. Qed.

(** The Number an integer reads as is the one the machine conversion
    gives. *)
Lemma of_Z_machine :
  forallb (λ z, PrimFloat.Leibniz.eqb (JsNumber.of_Z z)
                  (PrimFloat.of_uint63 (Uint63.of_Z z)))
          [1; 7; 690; 2 ^ 53 - 1; 2 ^ 53; 2 ^ 53 + 1; 2 ^ 53 + 3;
           2 ^ 60; 2 ^ 62 + 511; 2 ^ 62 + 512; 2 ^ 62 + 513;
           2 ^ 63 - 1]%Z = true.
Proof. vm_compute. reflexivity. Qed.





(** * Further properties of the page *)

(** ** More on the search filter (lines 53-62) *)

Section FilterMore.
Implicit Types (L : list Pokemon.t) (q r : jsstring) (p : Pokemon.t).

Lemma Substring_refl q : Substring q q.
Proof. exists [], []. by rewrite app_nil_r. Qed.

Lemma Substring_trans q r s : Substring q r → Substring r s → Substring q s.
Proof.
  intros (a & b & ->) (c & d & ->). exists (c ++ a), (b ++ d).
  by rewrite <- !app_assoc.
Qed.

Lemma Substring_toLowerCase q r :
  Substring q r → Substring (toLowerCase q) (toLowerCase r).
Proof.
  intros (a & b & ->). exists (toLowerCase a), (toLowerCase b).
  unfold toLowerCase. by rewrite !map_app.
Qed.

Lemma Substring_nil q : Substring q [] → q = [].
Proof.
  intros (a & b & H). symmetry in H.
  apply app_eq_nil in H as [_ H]. by apply app_eq_nil in H as [H _].
Qed.

Lemma lower_unit_image c :
  lower_unit c = c
  ∨ 97 ≤ lower_unit c ≤ 122
  ∨ 224 ≤ lower_unit c ≤ 254
  ∨ lower_unit c = 255
  ∨ lower_unit c = 956.
Proof. unfold lower_unit. repeat case_match; unit_tests; lia. Qed.

Lemma lower_unit_fixed d :
  97 ≤ d ≤ 122 ∨ 224 ≤ d ≤ 254 ∨ d = 255 ∨ d = 956 → lower_unit d = d.
Proof. unfold lower_unit. repeat case_match; unit_tests; lia. Qed.

Lemma lower_unit_idemp c : lower_unit (lower_unit c) = lower_unit c.
Proof.
  destruct (lower_unit_image c) as [H | H].
  - by rewrite !H.
  - by apply lower_unit_fixed.
Qed.

Lemma toLowerCase_idemp q : toLowerCase (toLowerCase q) = toLowerCase q.
Proof.
  unfold toLowerCase. rewrite map_map. apply map_ext, lower_unit_idemp.
Qed.

Lemma truthy_toLowerCase q : truthy (toLowerCase q) = truthy q.
Proof. by destruct q. Qed.

Lemma filter_twice {A} (f : A → bool) (l : list A) :
  List.filter f (List.filter f l) = List.filter f l.
Proof.
  induction l as [|x l IH]; [done |]. simpl.
  destruct (f x) eqn:Hx; [| done]. simpl. by rewrite Hx, IH.
Qed.

Lemma filter_sublist_impl {A} (f g : A → bool) (l : list A) :
  (∀ x, f x = true → g x = true) →
  sublist (List.filter f l) (List.filter g l).
Proof.
  intros Hfg. induction l as [|x l IH]; simpl; [constructor |].
  destruct (f x) eqn:Hf.
  - rewrite (Hfg x Hf). by constructor.
  - destruct (g x); [by constructor | done].
Qed.

Lemma includes_narrow s q r :
  Substring q r → includes s r = true → includes s q = true.
Proof.
  rewrite !includes_spec. intros Hqr Hr. by eapply Substring_trans.
Qed.

(** A query that matches still matches when it is cut down to one of its
    substrings, both in the Latin-1 range. *)
Lemma matchesQuery_narrow q r p :
  latin1 r → Substring q r →
  matchesQuery (toLowerCase r) p = true →
  matchesQuery (toLowerCase q) p = true.
Proof.
  intros _ Hqr. pose proof (Substring_toLowerCase _ _ Hqr) as Hl.
  unfold matchesQuery. rewrite !orb_true_iff, !existsb_exists.
  intros [[H | H] | (t & Ht & H)].
  - left. left. by eapply includes_narrow.
  - left. right. by eapply includes_narrow.
  - right. exists t. split; [done |]. by eapply includes_narrow.
Qed.

(** X1. Filtering is idempotent: the result of a query, filtered again by
    the same query, is that result. *)
Theorem filteredPokemon_idempotent L q :
  filteredPokemon (filteredPokemon L q) q = filteredPokemon L q.
Proof.
  unfold filteredPokemon. destruct (truthy q); simpl; [| done].
  apply filter_twice.
Qed.

(** X2. Typing more narrows the result: when the query [q] occurs in the
    longer query [r], at either end or inside, and [r] is in the Latin-1
    range (where lower-casing goes code unit by code unit), what [r] finds
    is a subsequence of what [q] finds. *)
Theorem filteredPokemon_narrows L q r :
  latin1 r → Substring q r →
  sublist (filteredPokemon L r) (filteredPokemon L q).
Proof.
  intros Hr Hqr. unfold filteredPokemon.
  destruct (truthy r) eqn:Ht; simpl.
  - destruct (truthy q); simpl.
    + apply filter_sublist_impl. intros p. by apply matchesQuery_narrow.
    + apply filter_sublist.
  - destruct r; [| done]. by rewrite (Substring_nil _ Hqr).
Qed.

Lemma filteredPokemon_narrows_witness :
  latin1 (lit "ivysaur")
  ∧ Substring (lit "saur") (lit "ivysaur")
  ∧ sublist (filteredPokemon sample (lit "ivysaur"))
            (filteredPokemon sample (lit "saur")).
Proof.
  assert (Hr : latin1 (lit "ivysaur")) by (repeat constructor).
  assert (H : Substring (lit "saur") (lit "ivysaur")).
  { exists (lit "ivy"), []. reflexivity. }
  split; [exact Hr |]. split; [exact H |].
  exact (filteredPokemon_narrows sample (lit "saur") (lit "ivysaur") Hr H).
Defined.

(** X3. Lower-casing a query of the Latin-1 range never changes the
    result (upper-casing can). *)
Theorem filteredPokemon_lower L q :
  latin1 q → filteredPokemon L (toLowerCase q) = filteredPokemon L q.
Proof.
  intros _. apply filteredPokemon_ext.
  - apply truthy_toLowerCase.
  - apply toLowerCase_idemp.
Qed.

Lemma filteredPokemon_lower_witness :
  latin1 (lit "PiKa")
  ∧ filteredPokemon sample (toLowerCase (lit "PiKa"))
    = filteredPokemon sample (lit "PiKa").
Proof.
  assert (Hq : latin1 (lit "PiKa")) by (repeat constructor).
  split; [exact Hq |].
  exact (filteredPokemon_lower sample (lit "PiKa") Hq).
Defined.

Lemma includes_refl s : includes s s = true.
Proof. apply includes_spec, Substring_refl. Qed.

(** X4. An entity of the list is found by its own name and by each of its
    categories, typed in full, and, when its identifier is a safe integer,
    by the decimal numeral of the identifier. *)
Theorem filteredPokemon_finds_own L p :
  p ∈ L →
  p ∈ filteredPokemon L (Pokemon.name p)
  ∧ (∀ t, t ∈ Pokemon.types p → p ∈ filteredPokemon L t)
  ∧ (safe_integer (Pokemon.id p) = true →
     p ∈ filteredPokemon L (numeral (Pokemon.id p))).
Proof.
  intros Hp.
  assert (Hin : ∀ q,
    (truthy q = true → matchesQuery (toLowerCase q) p = true) →
    p ∈ filteredPokemon L q).
  { intros q Hq. unfold filteredPokemon.
    destruct (truthy q); simpl; [| done].
    apply list_elem_of_In, filter_In. split; [by apply list_elem_of_In | auto]. }
  split; [| split].
  - apply Hin. intros _. unfold matchesQuery.
    by rewrite includes_refl.
  - intros t Ht. apply Hin. intros _. unfold matchesQuery.
    rewrite !orb_true_iff. right. apply existsb_exists.
    exists t. split; [by apply list_elem_of_In | apply includes_refl].
  - intros Hid. apply Hin. intros _. unfold matchesQuery.
    rewrite (toString_safe _ Hid), includes_numeral_lower, includes_refl.
    by rewrite orb_true_r.
Qed.

Lemma filteredPokemon_finds_own_witness :
  pikachu ∈ sample
  ∧ safe_integer (Pokemon.id pikachu) = true
  ∧ pikachu ∈ filteredPokemon sample (Pokemon.name pikachu)
  ∧ pikachu ∈ filteredPokemon sample (numeral (Pokemon.id pikachu)).
Proof.
  assert (H : pikachu ∈ sample) by (apply list_elem_of_In; simpl; auto).
  split; [exact H |]. split; [reflexivity |].
  pose proof (filteredPokemon_finds_own sample pikachu H) as (H1 & _ & H3).
  split; [exact H1 | exact (H3 eq_refl)].
Defined.
End FilterMore.

(** ** More on [Promise.all] and the loader (lines 21-51) *)

Section PromiseMore.
Context {A E : Type}.
Local Open Scope nat_scope.
Implicit Types (st : Promise.all_state A E) (outcomes : list (E + A)).
Implicit Types (order : list nat).

Lemma deliver_fulfilled outcomes st i v :
  all_inv outcomes st →
  Promise.promise st = Promise.Fulfilled v →
  Promise.promise (Promise.deliver outcomes st i) = Promise.Fulfilled v.
Proof.
  intros [Hlen Hcount Hvals Hprom] Hp. rewrite Hp in Hprom.
  destruct Hprom as [Hz _]. rewrite Hcount in Hz.
  unfold Promise.deliver.
  destruct (outcomes !! i) as [[e|x]|]; [| | done].
  - unfold Promise.reject. by rewrite Hp.
  - unfold Promise.on_fulfilled.
    destruct (Promise.values st !! i) as [[y|]|] eqn:Hslot; try done.
    destruct (empties_zero _ i Hz) as [y Hy]; [| congruence].
    by apply lookup_lt_Some in Hslot.
Qed.

Lemma foldl_deliver_fulfilled outcomes st order v :
  all_inv outcomes st →
  Promise.promise st = Promise.Fulfilled v →
  Promise.promise (foldl (Promise.deliver outcomes) st order)
  = Promise.Fulfilled v.
Proof.
  revert st. induction order as [|i order IH]; intros st Hinv Hp; [done |].
  simpl. apply IH; [by apply deliver_inv | by apply deliver_fulfilled].
Qed.

(** Completions that arrive after the aggregate has settled change
    nothing. *)
Lemma all_settled outcomes order extra :
  Promise.all outcomes order ≠ Promise.Pending →
  Promise.all outcomes (order ++ extra) = Promise.all outcomes order.
Proof.
  unfold Promise.all. rewrite foldl_app. set (st := foldl _ _ order).
  assert (Hinv : all_inv outcomes st)
    by apply foldl_deliver_inv, all_start_inv.
  destruct (Promise.promise st) as [|v|e] eqn:Hp; [done | |]; intros _.
  - by apply foldl_deliver_fulfilled.
  - by apply foldl_deliver_rejected.
Qed.

Lemma deliver_no_rejection outcomes st i :
  (∀ e, outcomes !! i ≠ Some (inl e)) →
  (∀ e, Promise.promise st ≠ Promise.Rejected e) →
  ∀ e, Promise.promise (Promise.deliver outcomes st i) ≠ Promise.Rejected e.
Proof.
  intros Hi Hp e. unfold Promise.deliver.
  destruct (outcomes !! i) as [[e'|x]|] eqn:Ho; [| | apply Hp].
  - by destruct (Hi e').
  - unfold Promise.on_fulfilled.
    destruct (Promise.values st !! i) as [[z|]|]; try apply Hp.
    destruct (pred _); [| apply Hp].
    unfold Promise.resolve. simpl.
    destruct (Promise.promise st) eqn:Hq; simpl; [done | done |].
    intros Heq. by destruct (Hp e).
Qed.

Lemma foldl_deliver_no_rejection outcomes st order :
  (∀ i e, i ∈ order → outcomes !! i ≠ Some (inl e)) →
  (∀ e, Promise.promise st ≠ Promise.Rejected e) →
  ∀ e, Promise.promise (foldl (Promise.deliver outcomes) st order)
       ≠ Promise.Rejected e.
Proof.
  revert st. induction order as [|i order IH]; intros st Hok Hp; [done |].
  simpl. apply IH.
  - intros j e Hj. apply Hok. by right.
  - apply deliver_no_rejection; [| done]. intros e. apply Hok. by left.
Qed.

Lemma all_start_not_rejected n e :
  Promise.promise (Promise.all_start (A := A) (E := E) n)
  ≠ Promise.Rejected e.
Proof. unfold Promise.all_start. destruct n; simpl; discriminate. Qed.

(** The aggregate is rejected with the reason of the failing input that
    settles first. *)
Lemma all_first_rejection outcomes before i after e :
  (∀ j e', j ∈ before → outcomes !! j ≠ Some (inl e')) →
  outcomes !! i = Some (inl e) →
  Promise.all outcomes (before ++ i :: after) = Promise.Rejected e.
Proof.
  intros Hbefore Hi. unfold Promise.all. rewrite foldl_app. simpl.
  set (st := foldl _ _ before).
  assert (Hinv : all_inv outcomes st)
    by apply foldl_deliver_inv, all_start_inv.
  assert (Hnr : ∀ e', Promise.promise st ≠ Promise.Rejected e').
  { apply foldl_deliver_no_rejection; [done |].
    intros e'. apply all_start_not_rejected. }
  apply foldl_deliver_rejected.
  unfold Promise.deliver. rewrite Hi. unfold Promise.reject.
  destruct (Promise.promise st) as [|v|e'] eqn:Hp; simpl; [done | |].
  - by destruct (failing_not_fulfilled _ _ _ _ v Hinv Hi).
  - by destruct (Hnr e').
Qed.

Lemma deliver_other outcomes st i j :
  i ≠ j →
  Promise.values (Promise.deliver outcomes st j) !! i
  = Promise.values st !! i.
Proof.
  intros Hne. unfold Promise.deliver.
  destruct (outcomes !! j) as [[e|x]|]; [| | done].
  - unfold Promise.reject. by destruct (Promise.promise st).
  - unfold Promise.on_fulfilled.
    destruct (Promise.values st !! j) as [[z|]|]; try done.
    assert (<[j := Some x]> (Promise.values st) !! i
            = Promise.values st !! i) by by rewrite list_lookup_insert_ne.
    destruct (pred _); [| done].
    unfold Promise.resolve. simpl. by destruct (Promise.promise st).
Qed.

Lemma foldl_deliver_other outcomes st order i :
  i ∉ order →
  Promise.values (foldl (Promise.deliver outcomes) st order) !! i
  = Promise.values st !! i.
Proof.
  revert st. induction order as [|j order IH]; intros st Hi; [done |].
  simpl. apply not_elem_of_cons in Hi as [Hne Hi].
  by rewrite IH, deliver_other.
Qed.

(** While an input has not settled and none has been rejected, the
    aggregate is pending. *)
Lemma all_pending outcomes order i :
  (∀ j e, j ∈ order → outcomes !! j ≠ Some (inl e)) →
  i < length outcomes → i ∉ order →
  Promise.all outcomes order = Promise.Pending.
Proof.
  intros Hok Hi Hout. unfold Promise.all.
  set (st := foldl _ _ order).
  assert (Hinv : all_inv outcomes st)
    by apply foldl_deliver_inv, all_start_inv.
  assert (Hslot : Promise.values st !! i = Some None).
  { unfold st. rewrite foldl_deliver_other by done.
    unfold Promise.all_start.
    destruct (length outcomes) as [|n] eqn:Hn; [lia |].
    by apply lookup_replicate_2. }
  assert (Hnr : ∀ e, Promise.promise st ≠ Promise.Rejected e).
  { apply foldl_deliver_no_rejection; [done |].
    intros e. apply all_start_not_rejected. }
  destruct Hinv as [Hlen Hcount _ Hprom].
  destruct (Promise.promise st) as [|v|e] eqn:Hp; [done | |].
  - destruct Hprom as [Hz _]. rewrite Hcount in Hz.
    destruct (empties_zero _ i Hz) as [x Hx]; [| congruence].
    by apply lookup_lt_Some in Hslot.
  - by destruct (Hnr e).
Qed.
End PromiseMore.

Section LoaderMore.
Local Open Scope nat_scope.
Implicit Types (net : Network) (order : list nat) (w : World).

Lemma fetchDetail_ok net (results : list Api.Ref) (j : nat) e :
  (∀ q, results !! j = Some q →
        ∃ d, detail_endpoint net (Api.url q) = inr d) →
  (fetchDetail net <$> results) !! j ≠ Some (inl e).
Proof.
  intros Hok. rewrite list_lookup_fmap.
  destruct (results !! j) as [q|]; simpl; [| done].
  destruct (Hok q eq_refl) as [d Hd]. unfold fetchDetail. by rewrite Hd.
Qed.

(** X5. When several detail requests fail, the error that is logged is the
    one of the failing request that completes first: after completions
    that all succeeded, the completion of a failing request runs the
    [catch] block with that request's error, whatever completes later. *)
Theorem fetchPokemon_first_failure net (results : list Api.Ref) before
  (i : nat) after p error w :
  list_endpoint net = inr results →
  (∀ j q, j ∈ before → results !! j = Some q →
          ∃ d, detail_endpoint net (Api.url q) = inr d) →
  results !! i = Some p →
  detail_endpoint net (Api.url p) = inl error →
  fetchPokemon net (before ++ i :: after) w = on_catch error w.
Proof.
  intros Hlist Hbefore Hi Hp. unfold fetchPokemon. rewrite Hlist.
  rewrite (all_first_rejection _ before i after error); [done | |].
  - intros j e Hj. apply fetchDetail_ok. intros q. by apply Hbefore.
  - rewrite list_lookup_fmap, Hi. simpl. unfold fetchDetail. by rewrite Hp.
Qed.

Lemma fetchPokemon_first_failure_witness :
  console (fetchPokemon (sample_network true) ([0] ++ 1 :: [2]) initial)
  = [(lit "Error fetching Pokemon:", lit "TypeError: Failed to fetch")].
Proof.
  rewrite (fetchPokemon_first_failure (sample_network true) sample_refs
             [0] 1 [2] {| Api.url := lit "2" |}
             (lit "TypeError: Failed to fetch") initial).
  - reflexivity.
  - reflexivity.
  - intros j q Hj Hq. apply list_elem_of_singleton in Hj as ->.
    injection Hq as <-. by eexists.
  - reflexivity.
  - reflexivity.
Defined.

(** X6. There is no timeout: as long as some detail request has not
    completed and none of the completed ones failed, [fetchPokemon] stays
    suspended and the world, its loading flag included, is as it was. *)
Theorem fetchPokemon_pending net (results : list Api.Ref) order (i : nat) w :
  list_endpoint net = inr results →
  (∀ j q, j ∈ order → results !! j = Some q →
          ∃ d, detail_endpoint net (Api.url q) = inr d) →
  i < length results → i ∉ order →
  fetchPokemon net order w = w.
Proof.
  intros Hlist Hok Hi Hout. unfold fetchPokemon. rewrite Hlist.
  rewrite (all_pending _ order i); [done | | | done].
  - intros j e Hj. apply fetchDetail_ok. intros q. by apply Hok.
  - by rewrite length_fmap.
Qed.

Lemma fetchPokemon_pending_witness :
  fetchPokemon (sample_network false) [2] initial = initial.
Proof.
  apply (fetchPokemon_pending (sample_network false) sample_refs [2] 0).
  - reflexivity.
  - intros j q Hj Hq. apply list_elem_of_singleton in Hj as ->.
    injection Hq as <-. by eexists.
  - simpl. lia.
  - intros H. apply list_elem_of_singleton in H. discriminate H.
Defined.

(** X7. Once the load has finished, with the list or with the failure,
    completions that arrive later change nothing. *)
Theorem fetchPokemon_settled net order extra w :
  loading (ui w) = true →
  loading (ui (fetchPokemon net order w)) = false →
  fetchPokemon net (order ++ extra) w = fetchPokemon net order w.
Proof.
  unfold fetchPokemon. intros Hw.
  destruct (list_endpoint net) as [e|results]; [done |].
  destruct (Promise.all (fetchDetail net <$> results) order) eqn:Hall.
  - intros H. congruence.
  - intros _. rewrite all_settled; by rewrite Hall.
  - intros _. rewrite all_settled; by rewrite Hall.
Qed.

Lemma fetchPokemon_settled_witness :
  fetchPokemon (sample_network true) ([1] ++ [0; 2]) initial
  = fetchPokemon (sample_network true) [1] initial.
Proof.
  apply (fetchPokemon_settled (sample_network true) [1] [0; 2] initial);
    reflexivity.
Defined.

(** X8. The loader never touches the query or the selection, and writes to
    the console at most once; when it does, the canonical list is left as
    it was. *)
Theorem fetchPokemon_frame net order w :
  search (ui (fetchPokemon net order w)) = search (ui w)
  ∧ selectedPokemon (ui (fetchPokemon net order w)) = selectedPokemon (ui w)
  ∧ (console (fetchPokemon net order w) = console w
     ∨ ∃ error,
         console (fetchPokemon net order w)
         = console w ++ [(lit "Error fetching Pokemon:", error)]
         ∧ pokemon (ui (fetchPokemon net order w)) = pokemon (ui w)).
Proof.
  unfold fetchPokemon.
  destruct (list_endpoint net) as [e|results].
  - repeat split. right. by exists e.
  - destruct (Promise.all _ order) as [|v|e].
    + repeat split. by left.
    + repeat split. by left.
    + repeat split. right. by exists e.
Qed.
End LoaderMore.

(** ** The session (lines 15-51, 105, 115-125, 160-176) *)

Section Session.
Local Open Scope nat_scope.
Variable net : Network.
Implicit Types (w : World) (st : State).

Lemma shown_cards_loaded st p :
  p ∈ shown_cards st → loading st = false ∧ p ∈ pokemon st.
Proof.
  unfold shown_cards. destruct (loading st); [by intros ?%elem_of_nil |].
  intros Hp. split; [done |].
  eapply elem_of_sublist; [exact Hp |].
  unfold filteredPokemon. destruct (truthy (search st)); simpl.
  - apply filter_sublist.
  - reflexivity.
Qed.

Lemma initial_inv : session_inv initial.
Proof. split; simpl; [done | done | by left]. Qed.

Lemma step_inv w w' : session_inv w → step net w w' → session_inv w'.
Proof.
  intros [Hload Hsel Hcon] Hstep.
  destruct Hstep as [w ev Hen | w order Hl].
  - destruct ev as [p| | | |v]; simpl in *.
    + apply shown_cards_loaded in Hen as [Hl Hp].
      split; simpl; [congruence | | done].
      intros p' Hp'. by injection Hp' as <-.
    + split; simpl; [| done | done].
      intros Hl. destruct (Hload Hl) as (? & ? & ?). done.
    + by split.
    + split; simpl; [| done | done].
      intros Hl. destruct (Hload Hl) as (? & ? & ?). done.
    + by split.
  - destruct (Hload Hl) as (Hp & Hs & Hc).
    unfold fetchPokemon.
    destruct (list_endpoint net) as [e|results].
    + split; simpl; [done | by rewrite Hs |].
      right. rewrite Hc, Hp. split; [by eexists | done].
    + destruct (Promise.all _ order) as [|v|e].
      * by split.
      * split; simpl; [done | by rewrite Hs | rewrite Hc; by left].
      * split; simpl; [done | by rewrite Hs |].
        right. rewrite Hc, Hp. split; [by eexists | done].
Qed.

Lemma reachable_inv w : reachable net w → session_inv w.
Proof.
  unfold reachable. revert w.
  apply (rtc_ind_r (λ w, session_inv w) initial); [apply initial_inv |].
  intros y z _ Hstep IH. by eapply step_inv.
Qed.

(** X9. In every world the session can reach, the selected entity, if
    there is one, is an element of the canonical list, and the load has
    finished. *)
Theorem selected_in_catalog w p :
  reachable net w →
  selectedPokemon (ui w) = Some p →
  p ∈ pokemon (ui w) ∧ loading (ui w) = false.
Proof.
  intros Hr Hp. destruct (reachable_inv w Hr) as [Hload Hsel _].
  split; [by apply Hsel |].
  destruct (loading (ui w)) eqn:Hl; [| done].
  destruct (Hload eq_refl) as (_ & Hnone & _). congruence.
Qed.

(** X10. In every world the session can reach, the console holds at most
    one entry, and when it holds one the canonical list is empty and the
    loading flag is cleared: a failure is logged once, and never next to
    a loaded list. *)
Theorem logged_at_most_once w :
  reachable net w →
  length (console w) ≤ 1
  ∧ (console w ≠ [] → pokemon (ui w) = [] ∧ loading (ui w) = false).
Proof.
  intros Hr. destruct (reachable_inv w Hr) as [Hload _ Hcon].
  destruct Hcon as [Hc | [[entry Hc] Hp]]; rewrite Hc; simpl.
  - split; [lia | done].
  - split; [lia |]. intros _. split; [done |].
    destruct (loading (ui w)) eqn:Hl; [| done].
    destruct (Hload eq_refl) as (_ & _ & Hnil). congruence.
Qed.

(** X12. While the page is loading, a typed query makes the count
    indicator read zero next to the spinner: the indicator is not held
    back until the list has arrived. *)
Theorem count_while_loading w :
  reachable net w →
  loading (ui w) = true →
  truthy (search (ui w)) = true →
  found_count (ui w) = Some 0 ∧ shows_spinner (ui w) = true.
Proof.
  intros Hr Hl Hq. destruct (reachable_inv w Hr) as [Hload _ _].
  destruct (Hload Hl) as (Hp & _ & _).
  unfold found_count, shows_spinner, filteredPokemon.
  by rewrite Hq, Hp, Hl.
Qed.
End Session.

Lemma reachable_typing_while_loading :
  reachable (sample_network false)
            (on_ui (λ st, handle st (ChangeSearch (lit "pika"))) initial).
Proof.
  eapply rtc_l; [| apply rtc_refl].
  by apply (step_event _ initial (ChangeSearch (lit "pika"))).
Qed.

Lemma reachable_selected :
  reachable (sample_network false)
            (on_ui (λ st, handle st (ClickCard pikachu))
                   (fetchPokemon (sample_network false) [2; 0; 1]%nat initial)).
Proof.
  eapply rtc_l; [by apply (step_load _ initial [2; 0; 1]%nat) |].
  eapply rtc_l; [| apply rtc_refl].
  apply (step_event _ _ (ClickCard pikachu)).
  apply list_elem_of_In. simpl. auto.
Qed.

Lemma reachable_failed :
  reachable (sample_network true)
            (fetchPokemon (sample_network true) [1]%nat initial).
Proof.
  eapply rtc_l; [by apply (step_load _ initial [1]%nat) | apply rtc_refl].
Qed.

Lemma selected_in_catalog_witness :
  pikachu ∈ sample.
Proof.
  exact (proj1 (selected_in_catalog (sample_network false) _ pikachu
                  reachable_selected eq_refl)).
Defined.

Lemma logged_at_most_once_witness :
  (length (console (fetchPokemon (sample_network true) [1]%nat initial))
   ≤ 1)%nat.
Proof.
  exact (proj1 (logged_at_most_once (sample_network true) _
                  reachable_failed)).
Defined.

Lemma count_while_loading_witness :
  found_count (ui (on_ui (λ st, handle st (ChangeSearch (lit "pika")))
                     initial)) = Some 0%nat.
Proof.
  exact (proj1 (count_while_loading (sample_network false) _
                  reachable_typing_while_loading eq_refl eq_refl)).
Defined.

(** ** What is rendered (lines 108-164) *)

(** X13. In every state the page shows exactly one of the spinner, a grid
    with at least one card, and the empty-state message. *)
Theorem view_trichotomy st :
  (shows_spinner st = true ∧ shown_cards st = []
   ∧ shows_empty_message st = false)
  ∨ (shows_spinner st = false ∧ shown_cards st ≠ []
     ∧ shows_empty_message st = false)
  ∨ (shows_spinner st = false ∧ shown_cards st = []
     ∧ shows_empty_message st = true).
Proof.
  unfold shows_spinner, shown_cards, shows_empty_message.
  destruct (loading st); simpl; [by left | right].
  destruct (filteredPokemon (pokemon st) (search st)); simpl.
  - by right.
  - by left.
Qed.

(** X14. No event of the page changes the canonical list or the loading
    flag, along any sequence of events; and typing, in any number of
    steps, leaves the selection as it is: an open overlay stays open on its
    entity while the query changes under it. *)
Theorem events_frame st evs :
  pokemon (run st evs) = pokemon st
  ∧ loading (run st evs) = loading st
  ∧ ∀ vs, selectedPokemon (run st (ChangeSearch <$> vs))
          = selectedPokemon st.
Proof.
  split; [| split].
  - revert st. induction evs as [|ev evs IH]; intros st; [done |].
    simpl. fold (run (handle st ev) evs). rewrite IH. by destruct ev.
  - revert st. induction evs as [|ev evs IH]; intros st; [done |].
    simpl. fold (run (handle st ev) evs). rewrite IH. by destruct ev.
  - intros vs. revert st. induction vs as [|v vs IH]; intros st; [done |].
    rewrite fmap_cons. simpl.
    fold (run (handle st (ChangeSearch v)) (ChangeSearch <$> vs)).
    by rewrite IH.
Qed.

(** ** The card label (lines 130 and 195) *)

Section Label.
Local Open Scope nat_scope.

Lemma lit_inj s s' : lit s = lit s' → s = s'.
Proof.
  revert s'. induction s as [|a s IH]; intros [|a' s'] H; try done.
  simpl in H. injection H as Ha Hs. f_equal; [| by apply IH].
  by rewrite <- (ascii_N_embedding a), Ha, ascii_N_embedding.
Qed.

Lemma to_int_proper z :
  Z.to_int z ≠ Decimal.Pos Decimal.Nil ∧ Z.to_int z ≠ Decimal.Neg Decimal.Nil.
Proof.
  destruct z as [|p|p]; simpl; split; try discriminate;
    intros H; injection H as H;
    by apply DecimalPos.Unsigned.to_uint_nonnil in H.
Qed.

Lemma numeral_inj a b : numeral a = numeral b → a = b.
Proof.
  unfold numeral. intros H%lit_inj.
  apply DecimalZ.to_int_inj.
  destruct (to_int_proper a) as [Ha1 Ha2], (to_int_proper b) as [Hb1 Hb2].
  pose proof (NilZero.isi _ Ha1 Ha2) as Ia.
  pose proof (NilZero.isi _ Hb1 Hb2) as Ib.
  rewrite H in Ia. congruence.
Qed.

Lemma numeral_nonempty z : numeral z ≠ [].
Proof.
  destruct z as [|p|p]; [done | | done].
  destruct (numeral_no_leading_zero (Z.pos p)) as (c & s & -> & _); [lia |].
  done.
Qed.

(** A numeral that starts with the digit zero is [0]. *)
Lemma numeral_head_zero z s : numeral z = 48%N :: s → s = [].
Proof.
  destruct z as [|p|p]; intros H.
  - by injection H.
  - destruct (numeral_no_leading_zero (Z.pos p)) as (c & s' & Hc & Hne);
      [lia |].
    rewrite Hc in H. injection H as -> _. done.
  - discriminate H.
Qed.

Lemma replicate_app_inv (ka kb : nat) (sa sb : jsstring) :
  replicate ka 48%N ++ sa = replicate kb 48%N ++ sb → ka ≤ kb →
  sa = replicate (kb - ka) 48%N ++ sb.
Proof.
  revert kb. induction ka as [|ka IH]; intros kb H Hle.
  - by rewrite Nat.sub_0_r.
  - destruct kb as [|kb]; [lia |]. simpl in H. injection H as H.
    apply IH; [done | lia].
Qed.

Lemma padded_numeral_inj (ka kb : nat) a b :
  replicate ka 48%N ++ numeral a = replicate kb 48%N ++ numeral b →
  a = b.
Proof.
  assert (Hcase : ∀ ka kb a b, ka ≤ kb →
    replicate ka 48%N ++ numeral a = replicate kb 48%N ++ numeral b →
    numeral a = numeral b).
  { clear. intros ka kb a b Hle H.
    apply replicate_app_inv in H; [| done].
    destruct (kb - ka) as [|k]; [done |]. simpl in H.
    apply numeral_head_zero in H. apply app_eq_nil in H as [_ H].
    by destruct (numeral_nonempty b). }
  intros H. apply numeral_inj.
  destruct (Nat.le_ge_cases ka kb) as [Hle | Hle].
  - by eapply Hcase.
  - symmetry. eapply Hcase; [exact Hle | done].
Qed.

(** X15. The label of a card identifies the entity's number: two entities
    whose identifiers are safe integers and whose labels are the same have
    the same identifier, padding included. *)
Theorem card_label_inj p p' :
  safe_integer (Pokemon.id p) = true →
  safe_integer (Pokemon.id p') = true →
  card_label p = card_label p' → Pokemon.id p = Pokemon.id p'.
Proof.
  unfold card_label, padStart0. intros Hp Hp'.
  rewrite !toString_safe by done. simpl. intros H. injection H as H.
  by eapply padded_numeral_inj.
Qed.

Lemma card_label_inj_witness :
  safe_integer (Pokemon.id (mkPokemon 7 "squirtle" ["water"])) = true
  ∧ card_label (mkPokemon 7 "squirtle" ["water"])
    = card_label (mkPokemon 7 "seven" [])
  ∧ Pokemon.id (mkPokemon 7 "squirtle" ["water"])
    = Pokemon.id (mkPokemon 7 "seven" []).
Proof.
  split; [reflexivity |]. split; [reflexivity |].
  apply (card_label_inj (mkPokemon 7 "squirtle" ["water"])
                        (mkPokemon 7 "seven" [])); reflexivity.
Defined.

Lemma digits_value_zeros (k : nat) ds :
  digits_value 0 (replicate k 48%N ++ ds) = digits_value 0 ds.
Proof. induction k as [|k IH]; [done | exact IH]. Qed.

Lemma digits_value_numeral z : (0 ≤ z)%Z → digits_value 0 (numeral z) = Some z.
Proof.
  intros Hz. pose proof (numeral_is_decimal z) as H.
  unfold is_decimal_numeral in H.
  destruct (Z.ltb_spec z 0) as [Hneg | _]; [lia |].
  by destruct H as (_ & _ & H).
Qed.

Lemma numeral_short :
  forallb (λ n, length (numeral (Z.of_nat n)) <=? 3) (seq 0 1000) = true.
Proof. vm_compute. reflexivity. Qed.

(** X16. The label reads back as the identifier: for a non-negative safe
    integer the label is [#] followed by digits whose decimal value is the
    identifier, as many as the numeral has and three at least; for an
    identifier from 0 to 999 they are exactly three. *)
Theorem card_label_value p :
  (0 ≤ Pokemon.id p)%Z → safe_integer (Pokemon.id p) = true →
  ∃ ds, card_label p = 35%N :: ds
        ∧ digits_value 0 ds = Some (Pokemon.id p)
        ∧ length ds = 3 `max` length (numeral (Pokemon.id p))
        ∧ ((Pokemon.id p < 1000)%Z → length ds = 3).
Proof.
  intros Hpos Hsafe. unfold card_label, padStart0.
  rewrite (toString_safe _ Hsafe). eexists. split; [reflexivity |].
  assert (Hlen : length (replicate (3 - length (numeral (Pokemon.id p))) 48%N
                         ++ numeral (Pokemon.id p))
                 = 3 `max` length (numeral (Pokemon.id p))).
  { rewrite !length_app, length_replicate. unfold code_unit. lia. }
  split; [| split; [exact Hlen |]].
  - rewrite digits_value_zeros. by apply digits_value_numeral.
  - intros Hid. rewrite Hlen. pose proof numeral_short as Hall.
    rewrite forallb_forall in Hall.
    specialize (Hall (Z.to_nat (Pokemon.id p))). cbv beta in Hall.
    rewrite Z2Nat.id in Hall by lia.
    assert (length (numeral (Pokemon.id p)) ≤ 3); [| lia].
    apply Nat.leb_le, Hall, in_seq. lia.
Qed.

Lemma card_label_value_witness :
  (0 ≤ Pokemon.id pikachu)%Z
  ∧ safe_integer (Pokemon.id pikachu) = true
  ∧ ∃ ds, card_label pikachu = 35%N :: ds
          ∧ digits_value 0 ds = Some (Pokemon.id pikachu).
Proof.
  split; [simpl; lia |]. split; [reflexivity |].
  destruct (card_label_value pikachu) as (ds & H1 & H2 & _);
    [simpl; lia | reflexivity |].
  by exists ds.
Defined.
End Label.

(** ** The colour of a badge (lines 64-86) *)

Section Colour.

Lemma color_table_keys : NoDup (color_table.*1).
Proof. apply (bool_decide_unpack _). vm_compute. exact I. Qed.

Lemma color_table_truthy :
  Forall (λ kv, truthy kv.2 = true) color_table.
Proof. repeat constructor. Qed.

Lemma colors_not_inherited :
  Forall (λ m, colors !! m = None) object_prototype_members.
Proof. repeat constructor. Qed.

(** X17. The colour of a badge is looked up by the exact category name:
    each name of the table gives its own class, every other name gives the
    default class [bg-gray-400], except the names of the members every
    object inherits, for which the lookup yields that member and not a
    class name. *)
Theorem getTypeColor_lookup type :
  (∀ cls, (type, cls) ∈ color_table → getTypeColor type = ClassName cls)
  ∧ (type ∉ color_table.*1 → type ∉ object_prototype_members →
     getTypeColor type = ClassName (lit "bg-gray-400"))
  ∧ (type ∈ object_prototype_members → getTypeColor type = Inherited type).
Proof.
  unfold getTypeColor. split; [| split].
  - intros cls Hin.
    pose proof (elem_of_list_to_map_1 (M := gmap jsstring) _ _ _
                  color_table_keys Hin) as Hl.
    unfold colors. rewrite Hl.
    pose proof color_table_truthy as Ht. rewrite Forall_forall in Ht.
    pose proof (Ht _ Hin) as Hcls. simpl in Hcls. by rewrite Hcls.
  - intros Hk Hm.
    unfold colors. rewrite (not_elem_of_list_to_map_1 _ _ Hk).
    by rewrite bool_decide_eq_false_2.
  - intros Hm.
    pose proof colors_not_inherited as Hn. rewrite Forall_forall in Hn.
    rewrite (Hn _ Hm). by rewrite bool_decide_eq_true_2.
Qed.

Lemma getTypeColor_lookup_witness :
  getTypeColor (lit "grass") = ClassName (lit "bg-green-500")
  ∧ getTypeColor (lit "shadow") = ClassName (lit "bg-gray-400")
  ∧ getTypeColor (lit "constructor") = Inherited (lit "constructor").
Proof.
  split; [| split].
  - apply (getTypeColor_lookup (lit "grass")).
    apply list_elem_of_In. simpl. auto 10.
  - apply (getTypeColor_lookup (lit "shadow"));
      apply (bool_decide_unpack _); vm_compute; exact I.
  - apply (getTypeColor_lookup (lit "constructor")).
    apply list_elem_of_In. simpl. auto.
Defined.
End Colour.
